(** * A verification model of the redis-client facade

    The development follows the TypeScript sources:
    - [src/RedisClient.ts]: the singleton store facade;
    - [src/cached-data/AbstractCachedData.ts]: keyed cache entries;
    - [src/cached-data/CachedDataManager.ts]: the registry of cache entries.

    JavaScript values are a tree datatype, the global [JSON] object is an
    interface (a type class), the ioredis connection is a command
    interpreter over an in-memory key space with a clock, and an [async]
    method is a state-and-exception computation that also records every
    command it sends and every line it logs. *)

From Stdlib Require Import ZArith NArith String Ascii List Bool Lia.
From Stdlib Require Import DecimalString DecimalN.
From stdpp Require Import base option gmap strings list.

Set Warnings "-register-all".
Local Open Scope string_scope.
Local Open Scope list_scope.
Local Open Scope Z_scope.

(** ** JavaScript values

    The values the facade handles: the primitives, arrays and plain
    objects (a list of fields, in order).  Numbers are integers. *)

Inductive JsValue : Type :=
| JsUndefined
| JsNull
| JsBoolean (b : bool)
| JsNumber (n : Z)
| JsString (s : string)
| JsArray (items : list JsValue)
| JsObject (fields : list (string * JsValue)).

(** The [typeof] operator. *)
Definition typeof (v : JsValue) : string :=
  match v with
  | JsUndefined => "undefined"
  | JsNull => "object"
  | JsBoolean _ => "boolean"
  | JsNumber _ => "number"
  | JsString _ => "string"
  | JsArray _ => "object"
  | JsObject _ => "object"
  end.

(** [v == null]: true of [null] and [undefined] only. *)
Definition eq_null (v : JsValue) : bool :=
  match v with
  | JsUndefined | JsNull => true
  | _ => false
  end.


(** Induction on values, with the hypothesis for every element of an
    array and every field of an object. *)
Section JsValue_nested_induction.
Variable P : JsValue -> Prop.
Hypothesis Hundefined : P JsUndefined.
Hypothesis Hnull : P JsNull.
Hypothesis Hboolean : forall b, P (JsBoolean b).
Hypothesis Hnumber : forall n, P (JsNumber n).
Hypothesis Hstring : forall s, P (JsString s).
Hypothesis Harray : forall items, Forall P items -> P (JsArray items).
Hypothesis Hobject :
  forall fields, Forall (fun fv => P (snd fv)) fields -> P (JsObject fields).

Fixpoint JsValue_nested_ind (v : JsValue) : P v :=
  match v with
  | JsUndefined => Hundefined
  | JsNull => Hnull
  | JsBoolean b => Hboolean b
  | JsNumber n => Hnumber n
  | JsString s => Hstring s
  | JsArray items =>
      Harray items
        ((fix go (l : list JsValue) : Forall P l :=
            match l with
            | [] => @List.Forall_nil _ P
            | x :: l' => @List.Forall_cons _ P x l' (JsValue_nested_ind x) (go l')
            end) items)
  | JsObject fields =>
      Hobject fields
        ((fix go (l : list (string * JsValue))
            : Forall (fun fv => P (snd fv)) l :=
            match l with
            | [] => @List.Forall_nil _ _
            | (k, x) :: l' =>
                @List.Forall_cons _ (fun fv => P (snd fv)) (k, x) l'
                  (JsValue_nested_ind x) (go l')
            end) fields)
  end.
End JsValue_nested_induction.

(** The decimal writing of an integer, as [String(n)] gives it. *)
Definition decimal (n : Z) : string :=
  match n with
  | Zneg p => String "-" (NilEmpty.string_of_uint (N.to_uint (Npos p)))
  | _ => NilEmpty.string_of_uint (N.to_uint (Z.to_N n))
  end.

(** The text ioredis sends for an argument: a string as it is, [null] and
    [undefined] as the empty text, anything else as [String(arg)] (an
    array as its elements joined by commas). *)
Fixpoint toArg (arg : JsValue) : string :=
  match arg with
  | JsUndefined => ""
  | JsNull => ""
  | JsBoolean true => "true"
  | JsBoolean false => "false"
  | JsNumber n => decimal n
  | JsString s => s
  | JsArray items =>
      (fix go (l : list JsValue) : string :=
         match l with
         | [] => ""
         | [x] => toArg x
         | x :: l' => toArg x +:+ "," +:+ go l'
         end) items
  | JsObject _ => "[object Object]"
  end.

(** The global [JSON] object.  [JSON_parse] answers [None] where
    [JSON.parse] throws a [SyntaxError]. *)
Class JSON : Type := {
  JSON_stringify : JsValue -> string;
  JSON_parse : string -> option JsValue
}.

(** A [seconds] argument: typed [number], it can also be left out
    ([undefined]) or be [null]. *)
Inductive Seconds : Type :=
| SecUndefined
| SecNull
| SecNumber (n : Z).

(** A default parameter [seconds = 0] replaces [undefined] only. *)
Definition default0 (s : Seconds) : Seconds :=
  match s with
  | SecUndefined => SecNumber 0
  | _ => s
  end.

(** [seconds == null] *)
Definition sec_eq_null (s : Seconds) : bool :=
  match s with
  | SecUndefined | SecNull => true
  | SecNumber _ => false
  end.

(** [seconds == 0]: [null] and [undefined] are not loosely equal to 0. *)
Definition sec_eq_0 (s : Seconds) : bool :=
  match s with
  | SecNumber n => n =? 0
  | _ => false
  end.

(** [seconds > 0]: [null] converts to 0 and [undefined] to NaN. *)
Definition sec_gt_0 (s : Seconds) : bool :=
  match s with
  | SecNumber n => 0 <? n
  | _ => false
  end.

(** ** The backing store

    The ioredis connection ([this._client]) is an external collaborator of
    the repository: a Redis server, or ioredis-mock standing in for one.
    It is described here the way a Redis server behaves, as far as the
    facade can observe it: a key space with a clock, where every key holds
    a string value, a hash, a set or a list, optionally with the instant
    at which it expires; a command on a key of the wrong kind is answered
    with [WRONGTYPE].  The store keeps text: whatever value a command
    writes is kept, compared and read back as the text ioredis sends for
    it ([toArg]).  An array among the arguments of [hset], [hsetnx] and
    [sismember] is sent as its elements ([flat]), and the object given to
    [hset] as its fields and their values in turn ([hset_fields]); [set]
    and [rpush] are handed no array, the facade has written it as JSON
    text by then.  Time is counted in whole seconds. *)
Module Store.

Inductive Payload : Type :=
| PString (v : JsValue)
| PHash (fields : list (string * JsValue))
| PSet (members : list JsValue)
| PList (items : list JsValue).

Record Entry : Type := mkEntry {
  payload : Payload;
  deadline : option Z
}.

Record t : Type := mkStore {
  db : gmap string Entry;
  clock : Z
}.

Definition empty : t := {| db := ∅; clock := 0 |}.

Inductive Cmd : Type :=
| SET (key : string) (value : JsValue)
| SETEX (key : string) (value : JsValue) (seconds : Seconds)
| GET (key : string)
| DEL (key : string)
| EXPIRE (key : string) (seconds : Seconds)
| HSET (key : string) (data : JsValue)
| SADD (key : string) (members : list JsValue)
| RPUSH (key : string) (data : JsValue)
| LRANGE (key : string) (start stop : Z).

Inductive Reply : Type :=
| ROk
| RNil
| RBulk (v : JsValue)
| RInt (n : Z)
| RMulti (items : list JsValue).

Inductive Error : Type :=
| WRONGTYPE
| ERR (msg : string).

Definition live (now : Z) (e : Entry) : bool :=
  match deadline e with
  | None => true
  | Some d => now <? d
  end.

(** The entry a key holds at the current instant, if it has not expired. *)
Definition find (key : string) (st : t) : option Entry :=
  match db st !! key with
  | Some e => if live (clock st) e then Some e else None
  | None => None
  end.

Definition put (key : string) (e : Entry) (st : t) : t :=
  {| db := <[key := e]> (db st); clock := clock st |}.

Definition remove (key : string) (st : t) : t :=
  {| db := delete key (db st); clock := clock st |}.

(** Time passing on the server. *)
Definition advance (d : Z) (st : t) : t :=
  {| db := db st; clock := clock st + d |}.

Fixpoint hash_put (f : string) (v : JsValue) (h : list (string * JsValue))
  : list (string * JsValue) :=
  match h with
  | [] => [(f, v)]
  | (g, w) :: h' =>
      if String.eqb f g then (g, v) :: h' else (g, w) :: hash_put f v h'
  end.

Definition hash_merge (h new : list (string * JsValue))
  : list (string * JsValue) :=
  fold_left (fun acc fv => hash_put (fst fv) (snd fv) acc) new h.

(** A written value as the store keeps it. *)
Definition text (v : JsValue) : JsValue := JsString (toArg v).

Definition texts (l : list JsValue) : list JsValue := List.map text l.

Definition text_fields (fields : list (string * JsValue))
  : list (string * JsValue) :=
  List.map (fun fv => (fst fv, text (snd fv))) fields.

(** ioredis flattens the arrays among the arguments of a command, one
    level deep. *)
Definition flat (arg : JsValue) : list JsValue :=
  match arg with
  | JsArray items => items
  | _ => [arg]
  end.

(** Arguments taken two by two, as fields and their values. *)
Fixpoint pairs (args : list JsValue) : option (list (string * JsValue)) :=
  match args with
  | [] => Some []
  | f :: v :: args' =>
      match pairs args' with
      | Some fields => Some ((toArg f, v) :: fields)
      | None => None
      end
  | [_] => None
  end.

(** The fields and values [hset(key, data)] sends: those of [data] when,
    flattened, it is one object (an array has its indices for fields);
    otherwise the flattened arguments two by two. *)
Definition hset_fields (data : JsValue) : option (list (string * JsValue)) :=
  match flat data with
  | [JsObject fields] => Some fields
  | [JsArray items] =>
      Some (imap (fun i v => (decimal (Z.of_nat i), v)) items)
  | args => pairs args
  end.

(** Members are compared as text. *)
Definition mem (x : JsValue) (s : list JsValue) : bool :=
  existsb (fun y => String.eqb (toArg x) (toArg y)) s.

Definition set_union (s new : list JsValue) : list JsValue :=
  fold_left (fun acc x => if mem x acc then acc else acc ++ [x]) new s.

(** [LRANGE]: negative indices count from the tail, the range is
    inclusive and clipped to the list. *)
Definition slice (l : list JsValue) (start stop : Z) : list JsValue :=
  let len := Z.of_nat (length l) in
  let lo := Z.max 0 (if start <? 0 then len + start else start) in
  let hi := Z.min (len - 1) (if stop <? 0 then len + stop else stop) in
  if hi <? lo then []
  else firstn (Z.to_nat (hi - lo + 1)) (skipn (Z.to_nat lo) l).

Definition exec (c : Cmd) (st : t) : (Error + Reply) * t :=
  match c with
  | SET key value =>
      (inr ROk,
       put key {| payload := PString (text value); deadline := None |} st)
  | SETEX key value seconds =>
      match seconds with
      | SecNumber n =>
          if 0 <? n then
            (inr ROk,
             put key {| payload := PString (text value);
                        deadline := Some (clock st + n) |} st)
          else (inl (ERR "invalid expire time in 'set' command"), st)
      | _ => (inl (ERR "value is not an integer or out of range"), st)
      end
  | GET key =>
      match find key st with
      | None => (inr RNil, st)
      | Some e =>
          match payload e with
          | PString v => (inr (RBulk v), st)
          | _ => (inl WRONGTYPE, st)
          end
      end
  | DEL key =>
      match find key st with
      | None => (inr (RInt 0), remove key st)
      | Some _ => (inr (RInt 1), remove key st)
      end
  | EXPIRE key seconds =>
      match seconds with
      | SecNumber n =>
          match find key st with
          | None => (inr (RInt 0), st)
          | Some e =>
              if 0 <? n then
                (inr (RInt 1),
                 put key {| payload := payload e;
                            deadline := Some (clock st + n) |} st)
              else (inr (RInt 1), remove key st)
          end
      | _ => (inl (ERR "value is not an integer or out of range"), st)
      end
  | HSET key data =>
      match hset_fields data with
      | Some (fv :: fields) =>
          match find key st with
          | None =>
              (inr (RInt (Z.of_nat
                            (length (hash_merge []
                                       (text_fields (fv :: fields)))))),
               put key {| payload :=
                            PHash (hash_merge [] (text_fields (fv :: fields)));
                          deadline := None |} st)
          | Some e =>
              match payload e with
              | PHash h =>
                  let h' := hash_merge h (text_fields (fv :: fields)) in
                  (inr (RInt (Z.of_nat (length h' - length h))),
                   put key {| payload := PHash h';
                              deadline := deadline e |} st)
              | _ => (inl WRONGTYPE, st)
              end
          end
      | _ => (inl (ERR "wrong number of arguments for 'hset' command"), st)
      end
  | SADD key members =>
      match members with
      | [] => (inl (ERR "wrong number of arguments for 'sadd' command"), st)
      | _ :: _ =>
          match find key st with
          | None =>
              (inr (RInt (Z.of_nat (length (set_union [] (texts members))))),
               put key {| payload := PSet (set_union [] (texts members));
                          deadline := None |} st)
          | Some e =>
              match payload e with
              | PSet s =>
                  let s' := set_union s (texts members) in
                  (inr (RInt (Z.of_nat (length s' - length s))),
                   put key {| payload := PSet s';
                              deadline := deadline e |} st)
              | _ => (inl WRONGTYPE, st)
              end
          end
      end
  | RPUSH key data =>
      match find key st with
      | None =>
          (inr (RInt 1),
           put key {| payload := PList [text data]; deadline := None |} st)
      | Some e =>
          match payload e with
          | PList l =>
              (inr (RInt (Z.of_nat (length l) + 1)),
               put key {| payload := PList (l ++ [text data]);
                          deadline := deadline e |} st)
          | _ => (inl WRONGTYPE, st)
          end
      end
  | LRANGE key start stop =>
      match find key st with
      | None => (inr (RMulti []), st)
      | Some e =>
          match payload e with
          | PList l => (inr (RMulti (slice l start stop)), st)
          | _ => (inl WRONGTYPE, st)
          end
      end
  end.

(** Whether a command is accepted in a given state. *)
Definition accepts (c : Cmd) (st : t) : bool :=
  match fst (exec c st) with
  | inr _ => true
  | inl _ => false
  end.

End Store.

(** ** Asynchronous computations

    An [async] method runs against the connection, may throw (a rejected
    promise) and leaves a trace: the commands sent through the connection
    and the lines written to the log4js logger, in order. *)

Inductive Event : Type :=
| Called (c : Store.Cmd)
| Logged (level msg : string).

Record World : Type := mkWorld {
  store : Store.t;
  trace : list Event
}.

(** What a method can throw: the error reply of the connection, or the
    [TypeError] of a call on [undefined]. *)
Inductive Exception : Type :=
| StoreError (e : Store.Error)
| TypeError (msg : string).

Inductive Outcome (A : Type) : Type :=
| Returned (a : A)
| Thrown (e : Exception).
Arguments Returned {A} a.
Arguments Thrown {A} e.

Definition Promise (A : Type) : Type := World -> Outcome A * World.

Definition ret {A : Type} (a : A) : Promise A := fun w => (Returned a, w).

Definition throw {A : Type} (e : Exception) : Promise A :=
  fun w => (Thrown e, w).

(** [await]: a rejection of the awaited promise propagates. *)
Definition bind {A B : Type} (p : Promise A) (k : A -> Promise B) : Promise B :=
  fun w =>
    match p w with
    | (Returned a, w') => k a w'
    | (Thrown e, w') => (Thrown e, w')
    end.

Declare Scope promise_scope.
Delimit Scope promise_scope with promise.
Notation "'await' x <- p ;; k" := (bind p (fun x => k))
  (at level 100, x name, p at next level, right associativity) : promise_scope.
Local Open Scope promise_scope.

(** Sending one command through the connection. *)
Definition call (c : Store.Cmd) : Promise Store.Reply :=
  fun w =>
    let w' := {| store := snd (Store.exec c (store w));
                 trace := trace w ++ [Called c] |} in
    match fst (Store.exec c (store w)) with
    | inr reply => (Returned reply, w')
    | inl e => (Thrown (StoreError e), w')
    end.

Definition logger (level msg : string) : Promise unit :=
  fun w => (Returned tt, {| store := store w;
                            trace := trace w ++ [Logged level msg] |}).

(** Time passing between two calls. *)
Definition elapse (d : Z) (w : World) : World :=
  {| store := Store.advance d (store w); trace := trace w |}.

Definition result {A : Type} (r : Outcome A * World) : Outcome A := fst r.
Definition after {A : Type} (r : Outcome A * World) : World := snd r.

(** The events a computation adds to the trace of the world it starts in. *)
Definition emitted {A : Type} (p : Promise A) (w : World) : list Event :=
  skipn (length (trace w)) (trace (after (p w))).

(** The ioredis methods the facade uses, with the values they resolve to. *)
Module Client.

Definition set (key : string) (value : JsValue) : Promise JsValue :=
  await _ <- call (Store.SET key value) ;; ret (JsString "OK").

Definition set_EX (key : string) (value : JsValue) (seconds : Seconds)
  : Promise JsValue :=
  await _ <- call (Store.SETEX key value seconds) ;; ret (JsString "OK").

Definition get (key : string) : Promise JsValue :=
  await r <- call (Store.GET key) ;;
  match r with
  | Store.RBulk v => ret v
  | _ => ret JsNull
  end.

Definition int_reply (r : Store.Reply) : Z :=
  match r with
  | Store.RInt n => n
  | _ => 0
  end.

Definition del (key : string) : Promise Z :=
  await r <- call (Store.DEL key) ;; ret (int_reply r).

Definition expire (key : string) (seconds : Seconds) : Promise Z :=
  await r <- call (Store.EXPIRE key seconds) ;; ret (int_reply r).

Definition hset (key : string) (data : JsValue) : Promise Z :=
  await r <- call (Store.HSET key data) ;; ret (int_reply r).

Definition sadd (key : string) (arr : list JsValue) : Promise Z :=
  await r <- call (Store.SADD key arr) ;; ret (int_reply r).

Definition rpush (key : string) (data : JsValue) : Promise Z :=
  await r <- call (Store.RPUSH key data) ;; ret (int_reply r).

Definition lrange (key : string) (start stop : Z) : Promise (list JsValue) :=
  await r <- call (Store.LRANGE key start stop) ;;
  match r with
  | Store.RMulti items => ret items
  | _ => ret []
  end.

End Client.

(** ** [RedisClient]: the store facade *)
Module RedisClient.

(** *** The singleton *)

(** What the constructor connects to: a server for a configuration,
    ioredis-mock for [null]. *)
Inductive Connection : Type :=
| Redis (conf : JsValue)
| MockRedis.

(** A [RedisClient] object: its identity and its [_client]. *)
Record Instance : Type := mkInstance {
  ident : nat;
  _client : Connection
}.

(** The static field [RedisClient.instance] ([None]: never assigned,
    [undefined]) and the number of objects constructed so far. *)
Record Statics : Type := mkStatics {
  instance : option Instance;
  constructed : nat
}.

Definition initial : Statics := {| instance := None; constructed := 0 |}.

Definition new (conf : JsValue) (s : Statics) : Instance :=
  if negb (eq_null conf)
  then {| ident := constructed s; _client := Redis conf |}
  else {| ident := constructed s; _client := MockRedis |}.

Definition init (conf : JsValue) (s : Statics) : Statics :=
  match instance s with
  | None => {| instance := Some (new conf s); constructed := S (constructed s) |}
  | Some _ => s
  end.

Definition getInstance (s : Statics) : Outcome (option Instance) :=
  Returned (instance s).

(** *** The methods *)
Section Methods.
Context {J : JSON}.

Definition set (key : string) (value : JsValue) (seconds : Seconds)
  : Promise unit :=
  let seconds := default0 seconds in
  let value :=
    if String.eqb (typeof value) "object"
    then JsString (JSON_stringify value)
    else value in
  if sec_eq_null seconds || sec_eq_0 seconds then
    await _ <- Client.set key value ;; ret tt
  else
    await _ <- Client.set_EX key value seconds ;; ret tt.

Definition get (key : string) : Promise JsValue :=
  Client.get key.

Definition getObject (key : string) : Promise JsValue :=
  await text <- get key ;;
  if negb (eq_null text) && String.eqb (typeof text) "string" then
    match text with
    | JsString s =>
        match JSON_parse s with
        | Some v => ret v
        | None =>
            await _ <- logger "debug" (s +:+ " is not a json string.") ;;
            ret JsNull
        end
    | _ => ret JsNull
    end
  else ret JsNull.

Definition del (key : string) : Promise unit :=
  await _ <- Client.del key ;; ret tt.

Definition expiry (key : string) (seconds : Seconds) : Promise unit :=
  await _ <- Client.expire key seconds ;; ret tt.

Definition hset (key : string) (data : JsValue) (seconds : Seconds)
  : Promise unit :=
  let seconds := default0 seconds in
  await _ <- Client.hset key data ;;
  if negb (sec_eq_null seconds) && sec_gt_0 seconds then
    await _ <- expiry key seconds ;; ret tt
  else ret tt.

Definition sadd (key : string) (arr : list JsValue) (seconds : Seconds)
  : Promise unit :=
  await _ <- Client.sadd key arr ;;
  if sec_gt_0 seconds then
    await _ <- expiry key seconds ;; ret tt
  else ret tt.

Definition rpush (key : string) (data : JsValue) (seconds : Seconds)
  : Promise unit :=
  let seconds := default0 seconds in
  let data :=
    if String.eqb (typeof data) "object"
    then JsString (JSON_stringify data)
    else data in
  await _ <- Client.rpush key data ;;
  if sec_gt_0 seconds then
    await _ <- expiry key seconds ;; ret tt
  else ret tt.

Definition lrange (key : string) (start stop : Z)
  : Promise (list JsValue) :=
  Client.lrange key start stop.

(** The body of the [for (let item of arr)] loop of [lrangeObject],
    [list_] being the array built so far. *)
Fixpoint lrangeObject_loop (arr list_ : list JsValue)
  : Promise (list JsValue) :=
  match arr with
  | [] => ret list_
  | item :: arr' =>
      if String.eqb (typeof item) "string" then
        match item with
        | JsString s =>
            match JSON_parse s with
            | Some v => lrangeObject_loop arr' (list_ ++ [v])
            | None =>
                await _ <- logger "warn" (s +:+ " is not a json string") ;;
                lrangeObject_loop arr' list_
            end
        | _ => lrangeObject_loop arr' list_
        end
      else lrangeObject_loop arr' (list_ ++ [item])
  end.

Definition lrangeObject (key : string) (start stop : Z)
  : Promise (list JsValue) :=
  await arr <- Client.lrange key start stop ;;
  lrangeObject_loop arr [].

End Methods.

End RedisClient.

(** ** [AbstractCachedData]: keyed cache entries *)
Module AbstractCachedData.

(** An entry: its identity, the [RedisClient] its field initialiser took
    from [RedisClient.getInstance()] when it was constructed ([None]:
    [undefined], no [init] had been called), the key function and the
    time to live the constructor stores ([ttl = 0] when the argument is
    left out). *)
Record t : Type := mkCachedData {
  oid : nat;
  redisClient : option RedisClient.Instance;
  getKey : JsValue -> string;
  ttl : Seconds
}.

Definition new (oid : nat) (getKey : JsValue -> string) (ttl : Seconds)
    (statics : RedisClient.Statics) : t :=
  {| oid := oid;
     redisClient :=
       match RedisClient.getInstance statics with
       | Returned instance => instance
       | Thrown _ => None
       end;
     getKey := getKey;
     ttl := default0 ttl |}.

(** A method call on [this.redisClient] when it is [undefined]. *)
Definition no_client (method : string) : Exception :=
  TypeError ("Cannot read properties of undefined (reading '"
             +:+ method +:+ "')").

Section Methods.
Context {J : JSON}.

Definition load (this : t) (key : JsValue) : Promise JsValue :=
  match redisClient this with
  | Some _ => RedisClient.getObject (getKey this key)
  | None => throw (no_client "getObject")
  end.

Definition clean (this : t) (key : JsValue) : Promise unit :=
  match redisClient this with
  | Some _ => RedisClient.del (getKey this key)
  | None => throw (no_client "del")
  end.

Definition save (this : t) (data : JsValue) : Promise unit :=
  match redisClient this with
  | Some _ => RedisClient.set (getKey this data) data (ttl this)
  | None => throw (no_client "set")
  end.

End Methods.

End AbstractCachedData.

(** ** [CachedDataManager]: the registry of cache entries *)
Module CachedDataManager.

(** A class constructor used as a key: its identity. *)
Definition CachedDataConstructor : Type := positive.

Record t : Type := mkManager {
  map : gmap positive AbstractCachedData.t
}.

Definition new : t := {| map := ∅ |}.

(** The static field [CachedDataManager.instance]; [getInstance]
    constructs the manager on first use. *)
Definition getInstance (instance : option t) : t * option t :=
  match instance with
  | None => (new, Some new)
  | Some m => (m, Some m)
  end.

Definition register (ctor : CachedDataConstructor)
    (instance : AbstractCachedData.t) (this : t) : t :=
  {| map := <[ctor := instance]> (map this) |}.

(** [Map.prototype.get]: [None] stands for [undefined]. *)
Definition get (ctor : CachedDataConstructor) (this : t)
  : Outcome (option AbstractCachedData.t) :=
  Returned (map this !! ctor).

(** The manager after a sequence of registrations, oldest first. *)
Definition registered
    (rs : list (CachedDataConstructor * AbstractCachedData.t)) (this : t) : t :=
  fold_left (fun m r => register (fst r) (snd r) m) rs this.

End CachedDataManager.

(** ** A JSON reader and writer

    An instance of the [JSON] interface for the values of [JsValue]:
    [null], booleans, integers, strings, arrays and objects, written
    without white space as [JSON.stringify] writes them. *)
Module MiniJSON.

Definition dquote : ascii := ascii_of_nat 34.
Definition backslash : ascii := ascii_of_nat 92.

Definition code (c : ascii) : N := N_of_ascii c.

Definition hex_digit (n : N) : ascii :=
  if (n <? 10)%N then ascii_of_N (48 + n) else ascii_of_N (87 + n).

Definition hex_val (c : ascii) : option N :=
  let n := code c in
  if ((48 <=? n) && (n <=? 57))%N then Some (n - 48)%N
  else if ((97 <=? n) && (n <=? 102))%N then Some (n - 87)%N
  else if ((65 <=? n) && (n <=? 70))%N then Some (n - 55)%N
  else None.

(** *** Writing *)

Definition escape_char (c : ascii) (rest : string) : string :=
  let n := code c in
  if (n =? 34)%N then String backslash (String dquote rest)
  else if (n =? 92)%N then String backslash (String backslash rest)
  else if (n =? 8)%N then String backslash (String "b" rest)
  else if (n =? 9)%N then String backslash (String "t" rest)
  else if (n =? 10)%N then String backslash (String "n" rest)
  else if (n =? 12)%N then String backslash (String "f" rest)
  else if (n =? 13)%N then String backslash (String "r" rest)
  else if (n <? 32)%N then
    String backslash (String "u" (String "0" (String "0"
      (String (hex_digit (n / 16)) (String (hex_digit (n mod 16)) rest)))))
  else String c rest.

Fixpoint escape (s : string) : string :=
  match s with
  | EmptyString => EmptyString
  | String c s' => escape_char c (escape s')
  end.

Definition quote (s : string) : string :=
  String dquote (escape s +:+ String dquote EmptyString).

Definition write_Z (n : Z) : string :=
  match n with
  | Zneg p => String "-" (NilEmpty.string_of_uint (N.to_uint (Npos p)))
  | _ => NilEmpty.string_of_uint (N.to_uint (Z.to_N n))
  end.

Fixpoint join (sep : string) (parts : list string) : string :=
  match parts with
  | [] => EmptyString
  | [p] => p
  | p :: parts' => p +:+ sep +:+ join sep parts'
  end.

(** [undefined] is written [null] inside an array and its field is left
    out of an object, as [JSON.stringify] does.  (The facade applies
    [JSON.stringify] to values of type [object] only, never to a bare
    [undefined].) *)
Fixpoint write (v : JsValue) : string :=
  match v with
  | JsUndefined => "null"
  | JsNull => "null"
  | JsBoolean true => "true"
  | JsBoolean false => "false"
  | JsNumber n => write_Z n
  | JsString s => quote s
  | JsArray items =>
      "[" +:+ join ","
        ((fix go (l : list JsValue) : list string :=
            match l with
            | [] => []
            | x :: l' => write x :: go l'
            end) items) +:+ "]"
  | JsObject fields =>
      "{" +:+ join ","
        ((fix go (l : list (string * JsValue)) : list string :=
            match l with
            | [] => []
            | (k, JsUndefined) :: l' => go l'
            | (k, x) :: l' => (quote k +:+ ":" +:+ write x) :: go l'
            end) fields) +:+ "}"
  end.

(** *** Reading *)

Definition is_ws (c : ascii) : bool :=
  let n := code c in
  ((n =? 32) || (n =? 9) || (n =? 10) || (n =? 13))%N.

Fixpoint skip_ws (s : string) : string :=
  match s with
  | String c s' => if is_ws c then skip_ws s' else s
  | EmptyString => s
  end.

Definition is_digit (c : ascii) : bool :=
  let n := code c in ((48 <=? n) && (n <=? 57))%N.

(** The longest prefix of digits, and what follows it. *)
Fixpoint span_digits (s : string) : string * string :=
  match s with
  | String c s' =>
      if is_digit c
      then (String c (fst (span_digits s')), snd (span_digits s'))
      else (EmptyString, s)
  | EmptyString => (EmptyString, EmptyString)
  end.

(** An unsigned integer without a leading zero, not followed by a
    fraction or an exponent. *)
Definition read_N (s : string) : option (N * string) :=
  let ds := fst (span_digits s) in
  let rest := snd (span_digits s) in
  let plain :=
    match rest with
    | String c _ =>
        negb (Ascii.eqb c "." || Ascii.eqb c "e" || Ascii.eqb c "E")
    | EmptyString => true
    end in
  let canonical :=
    match ds with
    | String "0" (String _ _) => false
    | EmptyString => false
    | _ => true
    end in
  if plain && canonical then
    match NilEmpty.uint_of_string ds with
    | Some u => Some (N.of_uint u, rest)
    | None => None
    end
  else None.

Definition read_number (s : string) : option (JsValue * string) :=
  match s with
  | String "-" s' =>
      match read_N s' with
      | Some (n, rest) => Some (JsNumber (- Z.of_N n), rest)
      | None => None
      end
  | _ =>
      match read_N s with
      | Some (n, rest) => Some (JsNumber (Z.of_N n), rest)
      | None => None
      end
  end.

Definition unescape (c : ascii) : option ascii :=
  let n := code c in
  if (n =? 34)%N then Some dquote
  else if (n =? 92)%N then Some backslash
  else if (n =? 47)%N then Some "/"%char
  else if (n =? 98)%N then Some (ascii_of_nat 8)
  else if (n =? 116)%N then Some (ascii_of_nat 9)
  else if (n =? 110)%N then Some (ascii_of_nat 10)
  else if (n =? 102)%N then Some (ascii_of_nat 12)
  else if (n =? 114)%N then Some (ascii_of_nat 13)
  else None.

Definition hex4 (a b c d : ascii) : option ascii :=
  match hex_val a, hex_val b, hex_val c, hex_val d with
  | Some 0%N, Some 0%N, Some h, Some l => Some (ascii_of_N (16 * h + l))
  | _, _, _, _ => None
  end.

(** The characters of a string literal after its opening quote, up to
    the closing quote, and what follows it. *)
Fixpoint read_chars (s : string) : option (string * string) :=
  match s with
  | EmptyString => None
  | String c s' =>
      if Ascii.eqb c dquote then Some (EmptyString, s')
      else if Ascii.eqb c backslash then
        match s' with
        | String e s'' =>
            if Ascii.eqb e "u" then
              match s'' with
              | String h1 (String h2 (String h3 (String h4 s4))) =>
                  match hex4 h1 h2 h3 h4, read_chars s4 with
                  | Some x, Some (str, rest) => Some (String x str, rest)
                  | _, _ => None
                  end
              | _ => None
              end
            else
              match unescape e, read_chars s'' with
              | Some x, Some (str, rest) => Some (String x str, rest)
              | _, _ => None
              end
        | EmptyString => None
        end
      else if (code c <? 32)%N then None
      else
        match read_chars s' with
        | Some (str, rest) => Some (String c str, rest)
        | None => None
        end
  end.

(** What follows [word] in [s], if [s] starts with it. *)
Fixpoint literal (word s : string) : option string :=
  match word with
  | EmptyString => Some s
  | String c word' =>
      match s with
      | String d s' => if Ascii.eqb c d then literal word' s' else None
      | EmptyString => None
      end
  end.

Fixpoint read_value (fuel : nat) (s : string) {struct fuel}
  : option (JsValue * string) :=
  match fuel with
  | O => None
  | S fuel' =>
      match skip_ws s with
      | EmptyString => None
      | String c s' =>
          if Ascii.eqb c dquote then
            match read_chars s' with
            | Some (str, rest) => Some (JsString str, rest)
            | None => None
            end
          else if Ascii.eqb c "[" then
            match skip_ws s' with
            | String "]" rest => Some (JsArray [], rest)
            | _ =>
                match read_elements fuel' s' with
                | Some (items, rest) => Some (JsArray items, rest)
                | None => None
                end
            end
          else if Ascii.eqb c "{" then
            match skip_ws s' with
            | String "}" rest => Some (JsObject [], rest)
            | _ =>
                match read_members fuel' s' with
                | Some (fields, rest) => Some (JsObject fields, rest)
                | None => None
                end
            end
          else if Ascii.eqb c "n" then
            match literal "ull" s' with
            | Some rest => Some (JsNull, rest)
            | None => None
            end
          else if Ascii.eqb c "t" then
            match literal "rue" s' with
            | Some rest => Some (JsBoolean true, rest)
            | None => None
            end
          else if Ascii.eqb c "f" then
            match literal "alse" s' with
            | Some rest => Some (JsBoolean false, rest)
            | None => None
            end
          else read_number (String c s')
      end
  end
with read_elements (fuel : nat) (s : string) {struct fuel}
  : option (list JsValue * string) :=
  match fuel with
  | O => None
  | S fuel' =>
      match read_value fuel' s with
      | Some (v, rest) =>
          match skip_ws rest with
          | String "," rest' =>
              match read_elements fuel' rest' with
              | Some (items, rest'') => Some (v :: items, rest'')
              | None => None
              end
          | String "]" rest' => Some ([v], rest')
          | _ => None
          end
      | None => None
      end
  end
with read_members (fuel : nat) (s : string) {struct fuel}
  : option (list (string * JsValue) * string) :=
  match fuel with
  | O => None
  | S fuel' =>
      match skip_ws s with
      | String c s' =>
          if Ascii.eqb c dquote then
            match read_chars s' with
            | Some (k, rest) =>
                match skip_ws rest with
                | String ":" rest' =>
                    match read_value fuel' rest' with
                    | Some (v, rest'') =>
                        match skip_ws rest'' with
                        | String "," rest3 =>
                            match read_members fuel' rest3 with
                            | Some (fields, rest4) =>
                                Some ((k, v) :: fields, rest4)
                            | None => None
                            end
                        | String "}" rest3 => Some ([(k, v)], rest3)
                        | _ => None
                        end
                    | None => None
                    end
                | _ => None
                end
            | None => None
            end
          else None
      | EmptyString => None
      end
  end.

(** The whole text is one value, white space apart. *)
Definition read (s : string) : option JsValue :=
  match read_value (S (String.length s)) s with
  | Some (v, rest) =>
      match skip_ws rest with
      | EmptyString => Some v
      | String _ _ => None
      end
  | None => None
  end.

#[export] Instance json : JSON :=
  {| JSON_stringify := write; JSON_parse := read |}.

(** The values JSON text can denote: no [undefined] anywhere inside. *)
Fixpoint json_data (v : JsValue) : bool :=
  match v with
  | JsUndefined => false
  | JsArray items =>
      (fix go (l : list JsValue) : bool :=
         match l with
         | [] => true
         | x :: l' => json_data x && go l'
         end) items
  | JsObject fields =>
      (fix go (l : list (string * JsValue)) : bool :=
         match l with
         | [] => true
         | (_, x) :: l' => json_data x && go l'
         end) fields
  | _ => true
  end.

(** *** Vocabulary about JSON text *)

(** What may follow a value in JSON text without white space: the end, a
    comma, or a closing bracket or brace. *)
Definition follows (rest : string) : bool :=
  match rest with
  | EmptyString => true
  | String c _ => Ascii.eqb c "," || Ascii.eqb c "]" || Ascii.eqb c "}"
  end.

Definition starts_with_digit (s : string) : bool :=
  match s with
  | String c _ => is_digit c
  | EmptyString => false
  end.

(** The decimal writing of a natural number is not empty and has no
    leading zero. *)
Definition canonical (u : Decimal.uint) : bool :=
  match u with
  | Decimal.Nil => false
  | Decimal.D0 Decimal.Nil => true
  | Decimal.D0 _ => false
  | _ => true
  end.

(** The texts of the fields of an object, as [write] lists them. *)
Fixpoint write_members (l : list (string * JsValue)) : list string :=
  match l with
  | [] => []
  | (k, JsUndefined) :: l' => write_members l'
  | (k, x) :: l' => (quote k +:+ ":" +:+ write x) :: write_members l'
  end.

(** The first character of a value. *)
Definition value_start (c : ascii) : bool :=
  Ascii.eqb c dquote || Ascii.eqb c "[" || Ascii.eqb c "{" || Ascii.eqb c "n"
  || Ascii.eqb c "t" || Ascii.eqb c "f" || Ascii.eqb c "-" || is_digit c.

(** A value is read back from its text, whatever follows it. *)
Definition reads_back (x : JsValue) : Prop :=
  forall (fuel : nat) (rest : string),
    (String.length (write x) <= fuel)%nat ->
    follows rest = true ->
    read_value fuel (write x +:+ rest) = Some (x, rest).

End MiniJSON.

(** ** The other commands of the connection

    The commands behind [hget], [hgetall], [hsetnx], [scard],
    [isSetMember], [llen] and [lpop], on the key space of [Store].  A
    world's [trace] lists the commands of [Store.Cmd] and the log lines;
    the commands below are answered without an entry in it. *)
Module Query.

Inductive t : Type :=
| HGET (key field : string)
| HGETALL (key : string)
| HSETNX (key field : string) (value : JsValue)
| SCARD (key : string)
| SISMEMBER (key : string) (member : JsValue)
| LLEN (key : string)
| LPOP (key : string).

(** The value of a field of a hash. *)
Definition hash_get (f : string) (h : list (string * JsValue))
  : option JsValue :=
  match List.find (fun gw => String.eqb f (fst gw)) h with
  | Some gw => Some (snd gw)
  | None => None
  end.

(** [HGETALL] answers with the fields and values in turn. *)
Fixpoint flatten (h : list (string * JsValue)) : list JsValue :=
  match h with
  | [] => []
  | (f, v) :: h' => JsString f :: v :: flatten h'
  end.

Definition exec (q : t) (st : Store.t) : (Store.Error + Store.Reply) * Store.t :=
  match q with
  | HGET key field =>
      match Store.find key st with
      | None => (inr Store.RNil, st)
      | Some e =>
          match Store.payload e with
          | Store.PHash h =>
              match hash_get field h with
              | Some v => (inr (Store.RBulk v), st)
              | None => (inr Store.RNil, st)
              end
          | _ => (inl Store.WRONGTYPE, st)
          end
      end
  | HGETALL key =>
      match Store.find key st with
      | None => (inr (Store.RMulti []), st)
      | Some e =>
          match Store.payload e with
          | Store.PHash h => (inr (Store.RMulti (flatten h)), st)
          | _ => (inl Store.WRONGTYPE, st)
          end
      end
  | HSETNX key field value =>
      match Store.flat value with
      | [value] =>
          match Store.find key st with
          | None =>
              (inr (Store.RInt 1),
               Store.put key
                 {| Store.payload := Store.PHash [(field, Store.text value)];
                    Store.deadline := None |} st)
          | Some e =>
              match Store.payload e with
              | Store.PHash h =>
                  match hash_get field h with
                  | Some _ => (inr (Store.RInt 0), st)
                  | None =>
                      (inr (Store.RInt 1),
                       Store.put key
                         {| Store.payload :=
                              Store.PHash (h ++ [(field, Store.text value)]);
                            Store.deadline := Store.deadline e |} st)
                  end
              | _ => (inl Store.WRONGTYPE, st)
              end
          end
      | _ =>
          (inl (Store.ERR "wrong number of arguments for 'hsetnx' command"),
           st)
      end
  | SCARD key =>
      match Store.find key st with
      | None => (inr (Store.RInt 0), st)
      | Some e =>
          match Store.payload e with
          | Store.PSet s => (inr (Store.RInt (Z.of_nat (length s))), st)
          | _ => (inl Store.WRONGTYPE, st)
          end
      end
  | SISMEMBER key member =>
      match Store.flat member with
      | [member] =>
          match Store.find key st with
          | None => (inr (Store.RInt 0), st)
          | Some e =>
              match Store.payload e with
              | Store.PSet s =>
                  (inr (Store.RInt (if Store.mem member s then 1 else 0)), st)
              | _ => (inl Store.WRONGTYPE, st)
              end
          end
      | _ =>
          (inl (Store.ERR
                  "wrong number of arguments for 'sismember' command"),
           st)
      end
  | LLEN key =>
      match Store.find key st with
      | None => (inr (Store.RInt 0), st)
      | Some e =>
          match Store.payload e with
          | Store.PList l => (inr (Store.RInt (Z.of_nat (length l))), st)
          | _ => (inl Store.WRONGTYPE, st)
          end
      end
  | LPOP key =>
      match Store.find key st with
      | None => (inr Store.RNil, st)
      | Some e =>
          match Store.payload e with
          | Store.PList [] => (inr Store.RNil, Store.remove key st)
          | Store.PList [x] => (inr (Store.RBulk x), Store.remove key st)
          | Store.PList (x :: l) =>
              (inr (Store.RBulk x),
               Store.put key {| Store.payload := Store.PList l;
                                Store.deadline := Store.deadline e |} st)
          | _ => (inl Store.WRONGTYPE, st)
          end
      end
  end.

End Query.

(** Sending one of these commands through the connection. *)
Definition ask (q : Query.t) : Promise Store.Reply :=
  fun w =>
    let w' := {| store := snd (Query.exec q (store w)); trace := trace w |} in
    match fst (Query.exec q (store w)) with
    | inr reply => (Returned reply, w')
    | inl e => (Thrown (StoreError e), w')
    end.

(** The ioredis methods for them, with the values they resolve to. *)
Module ClientMore.

Definition bulk_reply (r : Store.Reply) : JsValue :=
  match r with
  | Store.RBulk v => v
  | _ => JsNull
  end.

(** ioredis turns the reply of [HGETALL] into an object. *)
Fixpoint unflatten (items : list JsValue) : list (string * JsValue) :=
  match items with
  | JsString f :: v :: items' => (f, v) :: unflatten items'
  | _ => []
  end.

Definition hget (key name : string) : Promise JsValue :=
  await r <- ask (Query.HGET key name) ;; ret (bulk_reply r).

Definition hgetall (key : string) : Promise JsValue :=
  await r <- ask (Query.HGETALL key) ;;
  match r with
  | Store.RMulti items => ret (JsObject (unflatten items))
  | _ => ret (JsObject [])
  end.

Definition hsetnx (key name : string) (value : JsValue) : Promise Z :=
  await r <- ask (Query.HSETNX key name value) ;; ret (Client.int_reply r).

Definition scard (key : string) : Promise Z :=
  await r <- ask (Query.SCARD key) ;; ret (Client.int_reply r).


Definition llen (key : string) : Promise Z :=
  await r <- ask (Query.LLEN key) ;; ret (Client.int_reply r).

Definition lpop (key : string) : Promise JsValue :=
  await r <- ask (Query.LPOP key) ;; ret (bulk_reply r).

End ClientMore.

(** ** [RedisClient]: the methods for hashes, sets and lists *)
Module RedisClientMore.

Definition hget (key name : string) : Promise JsValue :=
  ClientMore.hget key name.

Definition hgetall (key : string) : Promise JsValue :=
  ClientMore.hgetall key.

Definition hsetnx (key name : string) (value : JsValue) : Promise unit :=
  await _ <- ClientMore.hsetnx key name value ;; ret tt.

Definition scard (key : string) : Promise Z :=
  ClientMore.scard key.


Definition llen (key : string) : Promise Z :=
  ClientMore.llen key.

Definition lpop (key : string) : Promise JsValue :=
  ClientMore.lpop key.

End RedisClientMore.

(** ** The manager singleton in use

    [CachedDataManager.getInstance().register(ctor, instance)] and
    [CachedDataManager.getInstance().get(ctor)] as callers write them: the
    manager is one object, held by the static field, and [register]
    updates it in place. *)
Module ManagerSingleton.

Definition register (ctor : CachedDataManager.CachedDataConstructor)
    (instance : AbstractCachedData.t) (slot : option CachedDataManager.t)
  : option CachedDataManager.t :=
  Some (CachedDataManager.register ctor instance
          (fst (CachedDataManager.getInstance slot))).

Definition get (ctor : CachedDataManager.CachedDataConstructor)
    (slot : option CachedDataManager.t)
  : Outcome (option AbstractCachedData.t) * option CachedDataManager.t :=
  (CachedDataManager.get ctor (fst (CachedDataManager.getInstance slot)),
   snd (CachedDataManager.getInstance slot)).

End ManagerSingleton.

(** ** Vocabulary of the statements *)

Section Vocabulary.
Context {J : JSON}.

(** The value [set] and [rpush] hand to the connection. *)
Definition wire (value : JsValue) : JsValue :=
  if String.eqb (typeof value) "object"
  then JsString (JSON_stringify value)
  else value.

(** What [lrangeObject] keeps of one fetched element: the parsed value of
    a text that parses, nothing of a text that does not, and an element
    that is not a text as it is. *)
Definition parsed_item (item : JsValue) : option JsValue :=
  match item with
  | JsString s => JSON_parse s
  | _ => Some item
  end.

(** The warnings [lrangeObject] logs: one for every text that does not
    parse. *)
Definition warned_item (item : JsValue) : list Event :=
  match item with
  | JsString s =>
      match JSON_parse s with
      | Some _ => []
      | None => [Logged "warn" (s +:+ " is not a json string")]
      end
  | _ => []
  end.

(** What the spec says of the same element: a text that does not parse
    is passed through as it is. *)
Definition passed_through_item (item : JsValue) : JsValue :=
  match item with
  | JsString s =>
      match JSON_parse s with
      | Some v => v
      | None => item
      end
  | _ => item
  end.

End Vocabulary.

(** ** Worked examples, with the JSON reader and writer above *)

Definition fresh : World := {| store := Store.empty; trace := [] |}.

Definition n1 : JsValue := JsObject [("n", JsNumber 1)].

Definition user7 : JsValue :=
  JsObject [("id", JsNumber 7); ("name", JsString "A")].

(** [rpush(k, "a"); rpush(k, {n: 1})] on an empty store. *)
Definition two_pushes : World :=
  after ((await _ <- RedisClient.rpush (J := MiniJSON.json) "k" (JsString "a") SecUndefined ;;
          RedisClient.rpush (J := MiniJSON.json) "k" n1 SecUndefined) fresh).

(** [set(k, "hello")] on an empty store: a text that is not JSON. *)
Definition hello_stored : World :=
  after (RedisClient.set (J := MiniJSON.json) "k" (JsString "hello") SecUndefined fresh).

(** The cache entry of the README: [getKey = e => "user:" + e.id], one
    hour to live. *)
Definition user_id (e : JsValue) : string :=
  match e with
  | JsObject fields =>
      match List.find (fun fv => String.eqb (fst fv) "id") fields with
      | Some (_, JsNumber n) => MiniJSON.write_Z n
      | Some (_, JsString s) => s
      | _ => "undefined"
      end
  | _ => "undefined"
  end.

Definition UserCache : AbstractCachedData.t :=
  AbstractCachedData.new 1 (fun e => "user:" +:+ user_id e) (SecNumber 3600)
    (RedisClient.init JsNull RedisClient.initial).

(** The same entry constructed before any [RedisClient.init]. *)
Definition EarlyCache : AbstractCachedData.t :=
  AbstractCachedData.new 2 (fun e => "user:" +:+ user_id e) (SecNumber 3600)
    RedisClient.initial.

(** [{a: undefined, b: [undefined, 1]}] and [{id: 7, nick: undefined}]:
    objects with [undefined] inside. *)
Definition sparse : JsValue :=
  JsObject [("a", JsUndefined); ("b", JsArray [JsUndefined; JsNumber 1])].


(** ** Vocabulary of the further properties *)

(** The hash, the set or the list a key holds, an absent key holding the
    empty one; [None] when the key holds something of another kind. *)
Definition hash_at (key : string) (st : Store.t)
  : option (list (string * JsValue)) :=
  match Store.find key st with
  | None => Some []
  | Some e =>
      match Store.payload e with
      | Store.PHash h => Some h
      | _ => None
      end
  end.


Definition list_at (key : string) (st : Store.t) : option (list JsValue) :=
  match Store.find key st with
  | None => Some []
  | Some e =>
      match Store.payload e with
      | Store.PList l => Some l
      | _ => None
      end
  end.

(** The string value a key holds. *)
Definition string_at (key : string) (st : Store.t) : option JsValue :=
  match Store.find key st with
  | Some e =>
      match Store.payload e with
      | Store.PString v => Some v
      | _ => None
      end
  | None => None
  end.

(** A sequence of [init] calls, first call first. *)
Definition inits (confs : list JsValue) (s : RedisClient.Statics)
  : RedisClient.Statics :=
  fold_left (fun s conf => RedisClient.init conf s) confs s.

(** The instance the latest registration under [ctor] gave, if any. *)
Fixpoint latest (ctor : CachedDataManager.CachedDataConstructor)
    (rs : list (CachedDataManager.CachedDataConstructor * AbstractCachedData.t))
  : option AbstractCachedData.t :=
  match rs with
  | [] => None
  | (c, i) :: rs' =>
      match latest ctor rs' with
      | Some i' => Some i'
      | None => if Pos.eqb c ctor then Some i else None
      end
  end.

(** A store that holds text only, as every store the commands have
    written does. *)
Definition is_text (v : JsValue) : bool :=
  match v with
  | JsString _ => true
  | _ => false
  end.

Definition textual_payload (p : Store.Payload) : bool :=
  match p with
  | Store.PString v => is_text v
  | Store.PHash h => forallb (fun fv => is_text (snd fv)) h
  | Store.PSet s => forallb is_text s
  | Store.PList l => forallb is_text l
  end.

Definition textual (st : Store.t) : Prop :=
  forall (key : string) (e : Store.Entry),
    Store.db st !! key = Some e -> textual_payload (Store.payload e) = true.

(** A computation that leaves a store holding text only as such. *)
Definition keeps_text {A : Type} (p : Promise A) : Prop :=
  forall w : World, textual (store w) -> textual (store (after (p w))).




(** * Properties *)

(** ** The backing store *)

Lemma find_put (key : string) (e : Store.Entry) (st : Store.t) :
  Store.find key (Store.put key e st)
  = if Store.live (Store.clock st) e then Some e else None.
Proof.
  unfold Store.find, Store.put; simpl.
  by rewrite lookup_insert_eq.
Qed.

Lemma find_put_ne (key key' : string) (e : Store.Entry) (st : Store.t) :
  key <> key' ->
  Store.find key' (Store.put key e st) = Store.find key' st.
Proof.
  intros Hne. unfold Store.find, Store.put; simpl.
  by rewrite lookup_insert_ne.
Qed.

Lemma find_remove (key : string) (st : Store.t) :
  Store.find key (Store.remove key st) = None.
Proof.
  unfold Store.find, Store.remove; simpl.
  by rewrite lookup_delete_eq.
Qed.

(** A removed key stays absent however much time passes. *)
Lemma find_remove_advance (key : string) (d : Z) (st : Store.t) :
  Store.find key (Store.advance d (Store.remove key st)) = None.
Proof.
  unfold Store.find, Store.advance, Store.remove; simpl.
  by rewrite lookup_delete_eq.
Qed.

(** A key without a deadline is there at every later instant; a key with
    one is there until the deadline. *)
Lemma find_put_advance (key : string) (e : Store.Entry) (d : Z) (st : Store.t) :
  match Store.deadline e with
  | None => True
  | Some t => Store.clock st + d < t
  end ->
  Store.find key (Store.advance d (Store.put key e st)) = Some e.
Proof.
  intros Hlive. unfold Store.find, Store.advance, Store.put; simpl.
  rewrite lookup_insert_eq. unfold Store.live.
  destruct (Store.deadline e) as [t|]; [|done].
  by destruct (Z.ltb_spec (Store.clock st + d) t); [|lia].
Qed.

Lemma emitted_app {A : Type} (p : Promise A) (w : World) (evs : list Event) :
  trace (after (p w)) = trace w ++ evs -> emitted p w = evs.
Proof.
  intros Heq. unfold emitted. rewrite Heq. apply drop_app_length.
Qed.

(** ** The facade *)

Section FacadeProperties.
Context {J : JSON}.

Import RedisClient.

Lemma wire_object (v : JsValue) :
  typeof v = "object" -> wire v = JsString (JSON_stringify v).
Proof. intros Hv. unfold wire. by rewrite Hv. Qed.


(** [get] reads what the key holds and leaves the store as it is. *)
Lemma get_present (w : World) (key : string) (e : Store.Entry) (v : JsValue) :
  Store.find key (store w) = Some e ->
  Store.payload e = Store.PString v ->
  get key w = (Returned v, {| store := store w;
                               trace := trace w ++ [Called (Store.GET key)] |}).
Proof.
  intros Hfind Hpay.
  unfold get, Client.get, bind, call, ret; simpl.
  by rewrite Hfind, Hpay.
Qed.

Lemma get_absent (w : World) (key : string) :
  Store.find key (store w) = None ->
  get key w = (Returned JsNull, {| store := store w;
                                    trace := trace w ++ [Called (Store.GET key)] |}).
Proof.
  intros Hfind.
  unfold get, Client.get, bind, call, ret; simpl.
  by rewrite Hfind.
Qed.

Lemma getObject_absent (w : World) (key : string) :
  Store.find key (store w) = None ->
  result (getObject key w) = Returned JsNull.
Proof.
  intros Hfind. unfold getObject, bind.
  by rewrite (get_absent _ _ Hfind).
Qed.

Lemma getObject_json (w : World) (key : string) (e : Store.Entry)
    (s : string) (v : JsValue) :
  Store.find key (store w) = Some e ->
  Store.payload e = Store.PString (JsString s) ->
  JSON_parse s = Some v ->
  result (getObject key w) = Returned v.
Proof.
  intros Hfind Hpay Hparse. unfold getObject, bind.
  rewrite (get_present _ _ _ _ Hfind Hpay); simpl.
  by rewrite Hparse.
Qed.

(** The store after [set], for a time to live the store accepts. *)
Lemma set_written (w : World) (key : string) (value : JsValue) (t : Z) :
  0 <= t ->
  set key value (SecNumber t) w
  = (Returned tt,
     {| store := Store.put key
                   {| Store.payload := Store.PString (Store.text (wire value));
                      Store.deadline :=
                        if t =? 0 then None
                        else Some (Store.clock (store w) + t) |} (store w);
        trace := trace w ++
                 [Called (if t =? 0 then Store.SET key (wire value)
                          else Store.SETEX key (wire value) (SecNumber t))] |}).
Proof.
  intros Ht. unfold set. fold (wire value). cbn -[wire Store.text].
  destruct (Z.eqb_spec t 0) as [->|Hne]; cbn -[wire Store.text].
  - reflexivity.
  - unfold Client.set_EX, bind, call, ret; cbn -[wire Store.text].
    by destruct (Z.ltb_spec 0 t); [|lia].
Qed.

(** C2: when the key holds a text on which [JSON.parse] throws,
    [getObject] returns [null] without throwing: it reads the key once,
    logs the text at debug level and leaves the store as it was; the
    result is the one [getObject] gives for an absent key. *)
Theorem getObject_malformed_is_null (w : World) (key : string)
    (e : Store.Entry) (s : string) :
  Store.find key (store w) = Some e ->
  Store.payload e = Store.PString (JsString s) ->
  JSON_parse s = None ->
  result (getObject key w) = Returned JsNull
  /\ emitted (getObject key) w
     = [Called (Store.GET key);
        Logged "debug" (s +:+ " is not a json string.")]
  /\ store (after (getObject key w)) = store w
  /\ forall w', Store.find key (store w') = None ->
       result (getObject key w') = result (getObject key w).
Proof.
  intros Hfind Hpay Hbad.
  assert (Hrun : getObject key w
                 = (Returned JsNull,
                    {| store := store w;
                       trace := trace w ++
                                [Called (Store.GET key);
                                 Logged "debug" (s +:+ " is not a json string.")] |})).
  { unfold getObject, bind.
    rewrite (get_present _ _ _ _ Hfind Hpay); simpl.
    rewrite Hbad. unfold logger, ret; simpl. by rewrite <- app_assoc. }
  repeat split.
  - by rewrite Hrun.
  - apply emitted_app. by rewrite Hrun.
  - by rewrite Hrun.
  - intros w' Habsent. rewrite Hrun. by apply getObject_absent.
Qed.

(** A structured value that was [set] is read back by [getObject] as long
    as the key has not expired. *)
Lemma getObject_after_set (w : World) (k : string) (v : JsValue) (t d : Z) :
  typeof v = "object" ->
  JSON_parse (JSON_stringify v) = Some v ->
  0 <= t -> 0 <= d -> t = 0 \/ d < t ->
  result (getObject k (elapse d (after (set k v (SecNumber t) w))))
  = Returned v.
Proof.
  intros Hobj Hjson Ht Hd Hlive.
  rewrite (set_written _ _ _ _ Ht).
  unfold after, elapse; simpl.
  eapply getObject_json; simpl; [| | exact Hjson].
  - apply find_put_advance; simpl.
    destruct (Z.eqb_spec t 0); [done | lia].
  - by rewrite (wire_object _ Hobj).
Qed.

(** C3: for a structured value [v] that the JSON library writes and reads
    back, and a time to live [t >= 0], [set(k, v, t)] succeeds, what it
    stores under [k] is the JSON text of [v], and a [getObject(k)] issued
    [d] seconds later, before the expiry if there is one, returns [v]. *)
Theorem set_then_getObject (w : World) (k : string) (v : JsValue) (t d : Z) :
  typeof v = "object" ->
  JSON_parse (JSON_stringify v) = Some v ->
  0 <= t -> 0 <= d -> t = 0 \/ d < t ->
  result (set k v (SecNumber t) w) = Returned tt
  /\ Store.payload <$> Store.find k (store (after (set k v (SecNumber t) w)))
     = Some (Store.PString (JsString (JSON_stringify v)))
  /\ result (getObject k (elapse d (after (set k v (SecNumber t) w))))
     = Returned v.
Proof.
  intros Hobj Hjson Ht Hd Hlive.
  split; [by rewrite (set_written _ _ _ _ Ht)|].
  split; [|by apply getObject_after_set].
  rewrite (set_written _ _ _ _ Ht). unfold after; simpl.
  rewrite find_put, (wire_object _ Hobj). unfold Store.live; simpl.
  destruct (Z.eqb_spec t 0) as [->|Hne]; simpl; [reflexivity|].
  by destruct (Z.ltb_spec (Store.clock (store w)) (Store.clock (store w) + t));
    [|lia].
Qed.


(** C5: [set] sends exactly one command.  With a time to live that is 0,
    [null] or left out it is a plain [SET] and the key is stored without
    expiry; with any other time to live it is one [SET ... EX seconds],
    which stores the value and its expiry together when the store
    accepts it (a positive number of seconds) and stores nothing
    otherwise.  No [EXPIRE] command is sent.  (What the store keeps is the
    text of the value sent.) *)
Theorem set_expiry_on_write (w : World) (key : string) (value : JsValue)
    (seconds : Seconds) :
  match seconds with
  | SecUndefined | SecNull | SecNumber 0 =>
      emitted (set key value seconds) w
      = [Called (Store.SET key (wire value))]
      /\ Store.db (store (after (set key value seconds w))) !! key
         = Some {| Store.payload := Store.PString (Store.text (wire value));
                   Store.deadline := None |}
  | SecNumber n =>
      emitted (set key value seconds) w
      = [Called (Store.SETEX key (wire value) (SecNumber n))]
      /\ Store.db (store (after (set key value seconds w))) !! key
         = if 0 <? n
           then Some {| Store.payload := Store.PString (Store.text (wire value));
                        Store.deadline := Some (Store.clock (store w) + n) |}
           else Store.db (store w) !! key
  end.
Proof.
  destruct seconds as [| |[|p|p]];
    (split; [apply emitted_app; reflexivity |]);
    unfold set, after; fold (wire value); cbn -[wire Store.text];
    try apply lookup_insert_eq; reflexivity.
Qed.

(** One write command followed by the conditional [expiry] of [hset],
    [sadd] and [rpush]: the [EXPIRE] is sent when the condition holds,
    unless the write was rejected and the method has thrown. *)
Lemma emitted_write_then_expiry (c : Store.Cmd) (key : string)
    (seconds : Seconds) (b : bool) (w : World) :
  emitted
    (await _ <- (await r <- call c ;; ret (Client.int_reply r)) ;;
     if b then await _ <- expiry key seconds ;; ret tt else ret tt) w
  = Called c ::
    (if Store.accepts c (store w) && b
     then [Called (Store.EXPIRE key seconds)] else []).
Proof.
  apply emitted_app.
  unfold expiry, Client.expire, bind, call, ret, after, Store.accepts.
  destruct (fst (Store.exec c (store w))) as [e|r];
    cbn -[Store.exec]; [reflexivity|].
  destruct b; cbn -[Store.exec]; [|reflexivity].
  match goal with
  | |- context [fst (Store.exec (Store.EXPIRE key seconds) ?st)] =>
      destruct (fst (Store.exec (Store.EXPIRE key seconds) st))
  end; cbn -[Store.exec]; by rewrite <- app_assoc.
Qed.

(** C6: [hset], [sadd] and [rpush] send their write as one command
    ([rpush] after writing a structured value as JSON text); when the
    store accepts the write, one separate [EXPIRE] on the key follows if
    [seconds > 0], and nothing follows if [seconds] is 0, negative,
    [null] or left out.  When the store rejects the write the method
    throws and nothing follows. *)
Theorem write_then_separate_expiry (w : World) (key : string)
    (data : JsValue) (arr : list JsValue) (seconds : Seconds) :
  emitted (hset key data seconds) w
  = Called (Store.HSET key data) ::
    (if Store.accepts (Store.HSET key data) (store w) && sec_gt_0 seconds
     then [Called (Store.EXPIRE key seconds)] else [])
  /\ emitted (sadd key arr seconds) w
     = Called (Store.SADD key arr) ::
       (if Store.accepts (Store.SADD key arr) (store w) && sec_gt_0 seconds
        then [Called (Store.EXPIRE key seconds)] else [])
  /\ emitted (rpush key data seconds) w
     = Called (Store.RPUSH key (wire data)) ::
       (if Store.accepts (Store.RPUSH key (wire data)) (store w)
           && sec_gt_0 seconds
        then [Called (Store.EXPIRE key seconds)] else []).
Proof.
  repeat split.
  - unfold hset, Client.hset.
    rewrite emitted_write_then_expiry.
    by destruct seconds as [| |n]; simpl; rewrite ?andb_false_r.
  - unfold sadd, Client.sadd. apply emitted_write_then_expiry.
  - unfold rpush, Client.rpush. fold (wire data).
    rewrite emitted_write_then_expiry.
    by destruct seconds as [| |n]; simpl; rewrite ?andb_false_r.
Qed.

Lemma lrangeObject_loop_run (arr list_ : list JsValue) (w : World) :
  lrangeObject_loop arr list_ w
  = (Returned (list_ ++ omap parsed_item arr),
     {| store := store w;
        trace := trace w ++ flat_map warned_item arr |}).
Proof.
  revert list_ w.
  induction arr as [|item arr IH]; intros list_ w.
  - destruct w; simpl. by rewrite !app_nil_r.
  - destruct item as [| |b|n|s|items|fields]; simpl;
      try (rewrite IH, <- app_assoc; reflexivity).
    destruct (JSON_parse s) as [v|]; simpl.
    + rewrite IH, <- app_assoc. reflexivity.
    + unfold bind, logger; simpl. rewrite IH; simpl.
      by rewrite <- app_assoc.
Qed.

(** [lrangeObject] on the elements its [LRANGE] fetched. *)
Lemma lrangeObject_run (w w' : World) (key : string) (start stop : Z)
    (arr : list JsValue) :
  Client.lrange key start stop w = (Returned arr, w') ->
  lrangeObject key start stop w
  = (Returned (omap parsed_item arr),
     {| store := store w'; trace := trace w' ++ flat_map warned_item arr |}).
Proof.
  intros Hrange. unfold lrangeObject, bind.
  by rewrite Hrange, lrangeObject_loop_run.
Qed.

(** [lrange] on a key that holds a list. *)
Lemma lrange_list (w : World) (key : string) (start stop : Z)
    (e : Store.Entry) (items : list JsValue) :
  Store.find key (store w) = Some e ->
  Store.payload e = Store.PList items ->
  Client.lrange key start stop w
  = (Returned (Store.slice items start stop),
     {| store := store w;
        trace := trace w ++ [Called (Store.LRANGE key start stop)] |}).
Proof.
  intros Hfind Hpay. unfold Client.lrange, bind, call, ret; simpl.
  by rewrite Hfind, Hpay.
Qed.

Lemma length_omap_le {A B : Type} (f : A -> option B) (l : list A) :
  (length (omap f l) <= length l)%nat.
Proof.
  induction l as [|x l IH]; simpl; [lia|].
  destruct (f x); simpl; [apply le_n_S, IH | apply Nat.le_le_succ_r, IH].
Qed.

(** C1, as the code has it: for a list stored at a key, [lrangeObject]
    fetches the range [lrange] fetches, with one [LRANGE], and returns, in
    order, the parsed value of every fetched text that parses and every
    element that is not a text; a text on which [JSON.parse] throws is
    left out of the result and a warning is logged for it, so the result
    has at most one entry per fetched element. *)
Theorem lrangeObject_parsed_elements (w : World) (key : string)
    (start stop : Z) (e : Store.Entry) (items : list JsValue) :
  Store.find key (store w) = Some e ->
  Store.payload e = Store.PList items ->
  result (lrange key start stop w) = Returned (Store.slice items start stop)
  /\ result (lrangeObject key start stop w)
     = Returned (omap parsed_item (Store.slice items start stop))
  /\ emitted (lrangeObject key start stop) w
     = Called (Store.LRANGE key start stop)
       :: flat_map warned_item (Store.slice items start stop)
  /\ (length (omap parsed_item (Store.slice items start stop))
      <= length (Store.slice items start stop))%nat.
Proof.
  intros Hfind Hpay.
  pose proof (lrange_list w key start stop e items Hfind Hpay) as Hrange.
  repeat split.
  - unfold lrange. by rewrite Hrange.
  - by rewrite (lrangeObject_run _ _ _ _ _ _ Hrange).
  - apply emitted_app.
    rewrite (lrangeObject_run _ _ _ _ _ _ Hrange); simpl.
    by rewrite <- app_assoc.
  - apply length_omap_le.
Qed.

Lemma del_removed (w : World) (key : string) :
  del key w
  = (Returned tt,
     {| store := Store.remove key (store w);
        trace := trace w ++ [Called (Store.DEL key)] |}).
Proof.
  unfold del, Client.del, bind, call, ret; simpl.
  by destruct (Store.find key (store w)).
Qed.

Import AbstractCachedData.


End FacadeProperties.

(** ** The singleton *)

(** [init] never replaces an instance: the first configuration wins. *)
Lemma init_twice (conf conf' : JsValue) (s : RedisClient.Statics) :
  RedisClient.init conf' (RedisClient.init conf s) = RedisClient.init conf s.
Proof.
  unfold RedisClient.init.
  destruct (RedisClient.instance s) as [o|] eqn:Hinst; simpl.
  - by rewrite Hinst.
  - reflexivity.
Qed.

(** C7: once an instance exists, [init(conf)] changes nothing, whatever
    the configuration: the static state is the same, the instance keeps
    its identity and its connection, and [getInstance()] returns the
    instance it returned before. *)
Theorem init_idempotent (conf : JsValue) (s : RedisClient.Statics)
    (o : RedisClient.Instance) :
  RedisClient.instance s = Some o ->
  RedisClient.init conf s = s
  /\ RedisClient.getInstance (RedisClient.init conf s) = Returned (Some o)
  /\ RedisClient.getInstance (RedisClient.init conf s)
     = RedisClient.getInstance s.
Proof.
  intros Hinst.
  assert (Hinit : RedisClient.init conf s = s).
  { unfold RedisClient.init. by rewrite Hinst. }
  rewrite Hinit. unfold RedisClient.getInstance. by rewrite Hinst.
Qed.

(** C10: before any [init], [getInstance()] returns [undefined] and does
    not throw; it is [init] that makes it return an instance. *)
Theorem getInstance_before_init :
  RedisClient.getInstance RedisClient.initial = Returned None
  /\ forall conf : JsValue,
       exists o, RedisClient.getInstance
                   (RedisClient.init conf RedisClient.initial)
                 = Returned (Some o).
Proof.
  split; [reflexivity|].
  intros conf. unfold RedisClient.getInstance, RedisClient.init; simpl.
  eauto.
Qed.

(** After an [init], [getInstance()] returns an instance. *)
Lemma getInstance_after_init (conf : JsValue) (s : RedisClient.Statics) :
  exists o, RedisClient.getInstance (RedisClient.init conf s) = Returned (Some o).
Proof.
  unfold RedisClient.getInstance, RedisClient.init.
  destruct (RedisClient.instance s) as [o|] eqn:Hinst; simpl; eauto.
  rewrite Hinst. eauto.
Qed.

(** ** The registry *)

Lemma registered_map_other
    (rs : list (CachedDataManager.CachedDataConstructor * AbstractCachedData.t))
    (ctor : CachedDataManager.CachedDataConstructor)
    (this : CachedDataManager.t) :
  ctor ∉ (fst <$> rs) ->
  CachedDataManager.map (CachedDataManager.registered rs this) !! ctor
  = CachedDataManager.map this !! ctor.
Proof.
  revert this. induction rs as [|[c i] rs IH]; intros this Hnot; [done|].
  simpl in *. apply not_elem_of_cons in Hnot as [Hne Hnot].
  rewrite (IH _ Hnot). unfold CachedDataManager.register; simpl.
  by rewrite lookup_insert_ne.
Qed.

(** C9: [get] after [register] returns the registered instance itself;
    [get] of a kind that no registration has named returns [undefined]
    and does not throw; a second registration under a kind replaces the
    first. *)
Theorem register_then_get
    (ctor : CachedDataManager.CachedDataConstructor)
    (instance instance' : AbstractCachedData.t)
    (this : CachedDataManager.t)
    (rs : list (CachedDataManager.CachedDataConstructor * AbstractCachedData.t)) :
  CachedDataManager.get ctor (CachedDataManager.register ctor instance this)
  = Returned (Some instance)
  /\ (ctor ∉ (fst <$> rs) ->
      CachedDataManager.get ctor
        (CachedDataManager.registered rs CachedDataManager.new)
      = Returned None)
  /\ CachedDataManager.get ctor
       (CachedDataManager.register ctor instance'
          (CachedDataManager.register ctor instance this))
     = Returned (Some instance').
Proof.
  unfold CachedDataManager.get. repeat split.
  - unfold CachedDataManager.register; simpl. by rewrite lookup_insert_eq.
  - intros Hnot. by rewrite (registered_map_other _ _ _ Hnot).
  - unfold CachedDataManager.register; simpl. by rewrite lookup_insert_eq.
Qed.

(** ** The JSON reader reads what the writer writes *)

Module MiniJSON_facts.
Import MiniJSON.

Lemma append_assoc (a b c : string) : (a +:+ b) +:+ c = a +:+ (b +:+ c).
Proof.
  induction a as [|x a IH]; [reflexivity|].
  change (String x ((a +:+ b) +:+ c) = String x (a +:+ (b +:+ c))).
  by rewrite IH.
Qed.

Lemma append_nil_r (a : string) : a +:+ EmptyString = a.
Proof.
  induction a as [|x a IH]; [reflexivity|].
  change (String x (a +:+ EmptyString) = String x a). by rewrite IH.
Qed.

Lemma length_append (a b : string) :
  String.length (a +:+ b) = (String.length a + String.length b)%nat.
Proof.
  induction a as [|x a IH]; [reflexivity|].
  change (S (String.length (a +:+ b)) = S (String.length a + String.length b)).
  by rewrite IH.
Qed.

(** *** String literals *)

Lemma escape_char_append (c : ascii) (s t : string) :
  escape_char c s +:+ t = escape_char c (s +:+ t).
Proof.
  unfold escape_char.
  repeat match goal with
         | |- context [if ?b then _ else _] => destruct b
         end; reflexivity.
Qed.

Lemma read_chars_escape_char (c : ascii) (s : string) :
  read_chars (escape_char c s)
  = match read_chars s with
    | Some (str, rest) => Some (String c str, rest)
    | None => None
    end.
Proof.
  destruct c as [[] [] [] [] [] [] [] []]; reflexivity.
Qed.

Lemma read_chars_escape (s rest : string) :
  read_chars (escape s +:+ String dquote rest) = Some (s, rest).
Proof.
  induction s as [|c s IH]; [reflexivity|].
  change (escape (String c s)) with (escape_char c (escape s)).
  by rewrite escape_char_append, read_chars_escape_char, IH.
Qed.

(** *** Numbers *)

Lemma follows_not_digit (rest : string) :
  follows rest = true -> starts_with_digit rest = false.
Proof.
  destruct rest as [|c rest]; [reflexivity|].
  destruct c as [[] [] [] [] [] [] [] []]; simpl; intros Hf;
    try discriminate Hf; reflexivity.
Qed.

Lemma follows_plain (rest : string) :
  follows rest = true ->
  match rest with
  | String c _ => negb (Ascii.eqb c "." || Ascii.eqb c "e" || Ascii.eqb c "E")
  | EmptyString => true
  end = true.
Proof.
  destruct rest as [|c rest]; [reflexivity|].
  destruct c as [[] [] [] [] [] [] [] []]; simpl; intros Hf;
    try discriminate Hf; reflexivity.
Qed.

Lemma span_digits_uint (u : Decimal.uint) (rest : string) :
  starts_with_digit rest = false ->
  span_digits (NilEmpty.string_of_uint u +:+ rest)
  = (NilEmpty.string_of_uint u, rest).
Proof.
  intros Hrest.
  induction u as [|u IH|u IH|u IH|u IH|u IH|u IH|u IH|u IH|u IH|u IH];
    try (simpl NilEmpty.string_of_uint;
         match goal with
         | |- span_digits (String ?c ?s +:+ rest) = _ =>
             change (span_digits (String c (s +:+ rest)) = (String c s, rest))
         end;
         simpl; by rewrite IH).
  destruct rest as [|c rest]; [reflexivity|].
  simpl in *. by rewrite Hrest.
Qed.

Lemma to_uint_canonical (m : N) : canonical (N.to_uint m) = true.
Proof.
  rewrite <- (DecimalN.Unsigned.of_to m) at 1.
  rewrite DecimalN.Unsigned.to_of.
  unfold Decimal.unorm.
  destruct (Decimal.nzhead (N.to_uint m)) as [|u|u|u|u|u|u|u|u|u|u] eqn:Hnz;
    try reflexivity.
  exfalso. exact (DecimalFacts.nzhead_nonzero _ _ Hnz).
Qed.

Lemma read_N_write (m : N) (rest : string) :
  follows rest = true ->
  read_N (NilEmpty.string_of_uint (N.to_uint m) +:+ rest) = Some (m, rest).
Proof.
  intros Hf. unfold read_N.
  rewrite (span_digits_uint _ _ (follows_not_digit _ Hf)); simpl fst; simpl snd.
  rewrite (follows_plain _ Hf).
  pose proof (to_uint_canonical m) as Hcan.
  rewrite NilEmpty.usu, DecimalN.Unsigned.of_to.
  destruct (N.to_uint m) as [|u|u|u|u|u|u|u|u|u|u]; try discriminate Hcan;
    try reflexivity.
  destruct u; try discriminate Hcan; reflexivity.
Qed.

Lemma read_number_digit (c : ascii) (s : string) :
  is_digit c = true ->
  read_number (String c s)
  = match read_N (String c s) with
    | Some (n, rest) => Some (JsNumber (Z.of_N n), rest)
    | None => None
    end.
Proof.
  destruct c as [[] [] [] [] [] [] [] []]; intros Hd;
    try discriminate Hd; reflexivity.
Qed.

Lemma string_of_uint_digit (u : Decimal.uint) :
  u <> Decimal.Nil ->
  exists c s, NilEmpty.string_of_uint u = String c s /\ is_digit c = true.
Proof.
  destruct u; intros Hu; try done; simpl; eauto.
Qed.

Lemma to_uint_nonnil (m : N) : N.to_uint m <> Decimal.Nil.
Proof.
  pose proof (to_uint_canonical m) as Hcan.
  intros Hnil. rewrite Hnil in Hcan. discriminate Hcan.
Qed.

Lemma read_number_write (n : Z) (rest : string) :
  follows rest = true ->
  read_number (write_Z n +:+ rest) = Some (JsNumber n, rest).
Proof.
  intros Hf.
  assert (Hnat : forall m : N,
             read_number (NilEmpty.string_of_uint (N.to_uint m) +:+ rest)
             = Some (JsNumber (Z.of_N m), rest)).
  { intros m.
    destruct (string_of_uint_digit _ (to_uint_nonnil m)) as (c & s & Hs & Hc).
    pose proof (read_N_write m rest Hf) as Hread.
    rewrite Hs in *.
    change (String c s +:+ rest) with (String c (s +:+ rest)) in *.
    by rewrite (read_number_digit _ _ Hc), Hread. }
  destruct n as [|p|p].
  - exact (Hnat 0%N).
  - exact (Hnat (Npos p)).
  - unfold write_Z.
    change (read_number
              (String "-" (NilEmpty.string_of_uint (N.to_uint (Npos p)) +:+ rest))
            = Some (JsNumber (Z.neg p), rest)).
    change (match read_N (NilEmpty.string_of_uint (N.to_uint (Npos p)) +:+ rest) with
            | Some (n, rest') => Some (JsNumber (- Z.of_N n), rest')
            | None => None
            end = Some (JsNumber (Z.neg p), rest)).
    by rewrite (read_N_write (Npos p) rest Hf).
Qed.

(** *** Values *)

Lemma write_array (items : list JsValue) :
  write (JsArray items) = "[" +:+ join "," (List.map write items) +:+ "]".
Proof. reflexivity. Qed.

Lemma write_object (fields : list (string * JsValue)) :
  write (JsObject fields) = "{" +:+ join "," (write_members fields) +:+ "}".
Proof. reflexivity. Qed.

Lemma write_members_cons (k : string) (x : JsValue) (l : list (string * JsValue)) :
  json_data x = true ->
  write_members ((k, x) :: l) = (quote k +:+ ":" +:+ write x) :: write_members l.
Proof. by destruct x. Qed.

Lemma quote_append (k rest : string) :
  quote k +:+ rest = String dquote (escape k +:+ String dquote rest).
Proof.
  unfold quote.
  change (String dquote ((escape k +:+ String dquote EmptyString) +:+ rest)
          = String dquote (escape k +:+ String dquote rest)).
  by rewrite append_assoc.
Qed.

Lemma write_start (v : JsValue) :
  exists c s, write v = String c s /\ value_start c = true.
Proof.
  destruct v as [| |[]|n|str|items|fields]; try (simpl; eauto; fail).
  destruct n as [|p|p].
  - destruct (string_of_uint_digit _ (to_uint_nonnil 0)) as (c & s & Hs & Hc).
    exists c, s. split; [exact Hs|]. unfold value_start. rewrite Hc.
    by rewrite !orb_true_r.
  - destruct (string_of_uint_digit _ (to_uint_nonnil (Npos p)))
      as (c & s & Hs & Hc).
    exists c, s. split; [exact Hs|]. unfold value_start. rewrite Hc.
    by rewrite !orb_true_r.
  - simpl. eauto.
Qed.

Lemma write_nonempty (v : JsValue) : (1 <= String.length (write v))%nat.
Proof.
  destruct (write_start v) as (c & s & Hs & _). rewrite Hs. simpl. lia.
Qed.

Lemma read_value_number (fuel : nat) (c : ascii) (s : string) :
  Ascii.eqb c "-" || is_digit c = true ->
  read_value (S fuel) (String c s) = read_number (String c s).
Proof.
  destruct c as [[] [] [] [] [] [] [] []]; intros Hc;
    try discriminate Hc; reflexivity.
Qed.

Lemma read_value_array (fuel : nat) (c : ascii) (s : string) :
  value_start c = true ->
  read_value (S fuel) (String "[" (String c s))
  = match read_elements fuel (String c s) with
    | Some (items, rest) => Some (JsArray items, rest)
    | None => None
    end.
Proof.
  destruct c as [[] [] [] [] [] [] [] []]; intros Hc;
    try discriminate Hc; reflexivity.
Qed.

Lemma read_elements_step (fuel : nat) (s : string) :
  read_elements (S fuel) s
  = match read_value fuel s with
    | Some (v, rest) =>
        match skip_ws rest with
        | String "," rest' =>
            match read_elements fuel rest' with
            | Some (items, rest'') => Some (v :: items, rest'')
            | None => None
            end
        | String "]" rest' => Some ([v], rest')
        | _ => None
        end
    | None => None
    end.
Proof. reflexivity. Qed.

Lemma read_members_step (fuel : nat) (s : string) :
  read_members (S fuel) (String dquote s)
  = match read_chars s with
    | Some (k, rest) =>
        match skip_ws rest with
        | String ":" rest' =>
            match read_value fuel rest' with
            | Some (v, rest'') =>
                match skip_ws rest'' with
                | String "," rest3 =>
                    match read_members fuel rest3 with
                    | Some (fields, rest4) => Some ((k, v) :: fields, rest4)
                    | None => None
                    end
                | String "}" rest3 => Some ([(k, v)], rest3)
                | _ => None
                end
            | None => None
            end
        | _ => None
        end
    | None => None
    end.
Proof. reflexivity. Qed.

Lemma read_elements_write (items : list JsValue) :
  Forall reads_back items ->
  items <> [] ->
  forall (fuel : nat) (rest : string),
    (String.length (join "," (List.map write items)) < fuel)%nat ->
    read_elements fuel (join "," (List.map write items) +:+ String "]" rest)
    = Some (items, rest).
Proof.
  induction items as [|x l IH]; [done|].
  intros Hall _ fuel rest Hfuel.
  apply Forall_cons_1 in Hall as [Hx Hl].
  destruct fuel as [|fuel]; [lia|].
  rewrite read_elements_step.
  destruct l as [|y l].
  - simpl in *.
    rewrite (Hx fuel (String "]" rest)); [reflexivity | lia | reflexivity].
  - change (join "," (List.map write (x :: y :: l)))
      with (write x +:+ "," +:+ join "," (List.map write (y :: l))) in *.
    set (J := join "," (List.map write (y :: l))) in *.
    rewrite !length_append in Hfuel.
    change (String.length ",") with 1%nat in Hfuel.
    pose proof (write_nonempty x) as Hne.
    rewrite !append_assoc.
    change ("," +:+ J +:+ String "]" rest)
      with (String "," (J +:+ String "]" rest)).
    rewrite (Hx fuel _); [| lia | reflexivity].
    simpl skip_ws. cbv iota beta.
    rewrite IH; [reflexivity | exact Hl | done | lia].
Qed.

Lemma read_members_write (fields : list (string * JsValue)) :
  Forall (fun fv => json_data (snd fv) = true /\ reads_back (snd fv)) fields ->
  fields <> [] ->
  forall (fuel : nat) (rest : string),
    (String.length (join "," (write_members fields)) < fuel)%nat ->
    read_members fuel (join "," (write_members fields) +:+ String "}" rest)
    = Some (fields, rest).
Proof.
  induction fields as [|[k x] l IH]; [done|].
  intros Hall _ fuel rest Hfuel.
  apply Forall_cons_1 in Hall as [[Hdata Hx] Hl]. simpl in Hdata, Hx.
  destruct fuel as [|fuel]; [lia|].
  rewrite (write_members_cons _ _ _ Hdata) in *.
  pose proof (write_nonempty x) as Hne.
  destruct l as [|[k' x'] l].
  - change (write_members []) with (@nil string) in *.
    change (join "," [quote k +:+ ":" +:+ write x])
      with (quote k +:+ ":" +:+ write x) in *.
    rewrite !length_append in Hfuel.
    rewrite !append_assoc, quote_append, read_members_step, read_chars_escape.
    change (":" +:+ write x +:+ String "}" rest)
      with (String ":" (write x +:+ String "}" rest)).
    simpl skip_ws. cbv iota beta.
    rewrite (Hx fuel _); [reflexivity | lia | reflexivity].
  - set (l' := (k', x') :: l) in *.
    assert (Hjoin : join "," ((quote k +:+ ":" +:+ write x) :: write_members l')
                    = (quote k +:+ ":" +:+ write x) +:+ "," +:+
                      join "," (write_members l')).
    { apply Forall_cons_1 in Hl as [[Hdata' _] _]. simpl in Hdata'.
      unfold l'. by rewrite (write_members_cons _ _ _ Hdata'). }
    rewrite Hjoin in *.
    set (M := join "," (write_members l')) in *.
    rewrite !length_append in Hfuel.
    change (String.length ",") with 1%nat in Hfuel.
    rewrite !append_assoc, quote_append, read_members_step, read_chars_escape.
    change (":" +:+ write x +:+ "," +:+ M +:+ String "}" rest)
      with (String ":" (write x +:+ String "," (M +:+ String "}" rest))).
    simpl skip_ws. cbv iota beta.
    rewrite (Hx fuel _); [| lia | reflexivity].
    simpl skip_ws. cbv iota beta.
    rewrite IH; [reflexivity | exact Hl | done | lia].
Qed.

Lemma json_data_array (items : list JsValue) :
  json_data (JsArray items) = true ->
  Forall (fun x => json_data x = true) items.
Proof.
  induction items as [|x l IH]; [constructor|].
  intros Hdata.
  change (json_data x && json_data (JsArray l) = true) in Hdata.
  apply andb_true_iff in Hdata as [Hx Hl].
  constructor; [exact Hx | exact (IH Hl)].
Qed.

Lemma json_data_object (fields : list (string * JsValue)) :
  json_data (JsObject fields) = true ->
  Forall (fun fv => json_data (snd fv) = true) fields.
Proof.
  induction fields as [|[k x] l IH]; [constructor|].
  intros Hdata.
  change (json_data x && json_data (JsObject l) = true) in Hdata.
  apply andb_true_iff in Hdata as [Hx Hl].
  constructor; [exact Hx | exact (IH Hl)].
Qed.

Lemma write_Z_start (n : Z) :
  exists c s, write_Z n = String c s /\ Ascii.eqb c "-" || is_digit c = true.
Proof.
  destruct n as [|p|p].
  - destruct (string_of_uint_digit _ (to_uint_nonnil 0)) as (c & s & Hs & Hc).
    exists c, s. split; [exact Hs|]. by rewrite Hc, orb_true_r.
  - destruct (string_of_uint_digit _ (to_uint_nonnil (Npos p)))
      as (c & s & Hs & Hc).
    exists c, s. split; [exact Hs|]. by rewrite Hc, orb_true_r.
  - simpl. eauto.
Qed.

Lemma join_start (x : JsValue) (l : list JsValue) :
  exists c s,
    join "," (List.map write (x :: l)) = String c s /\ value_start c = true.
Proof.
  destruct (write_start x) as (c & s & Hs & Hc).
  destruct l as [|y l].
  - exists c, s. by split.
  - exists c, (s +:+ "," +:+ join "," (List.map write (y :: l))).
    split; [|exact Hc].
    change (join "," (List.map write (x :: y :: l)))
      with (write x +:+ "," +:+ join "," (List.map write (y :: l))).
    by rewrite Hs.
Qed.

Lemma read_value_string (fuel : nat) (s : string) :
  read_value (S fuel) (String dquote s)
  = match read_chars s with
    | Some (str, rest) => Some (JsString str, rest)
    | None => None
    end.
Proof. reflexivity. Qed.

Lemma read_value_object (fuel : nat) (s : string) :
  read_value (S fuel) (String "{" (String dquote s))
  = match read_members fuel (String dquote s) with
    | Some (fields, rest) => Some (JsObject fields, rest)
    | None => None
    end.
Proof. reflexivity. Qed.

Lemma read_value_write (v : JsValue) : json_data v = true -> reads_back v.
Proof.
  induction v as [| |b|n|str|items IH|fields IH] using JsValue_nested_ind;
    intros Hdata fuel rest Hfuel Hf.
  - discriminate Hdata.
  - destruct fuel as [|fuel]; [simpl in Hfuel; lia | reflexivity].
  - destruct fuel as [|fuel]; [destruct b; simpl in Hfuel; lia|].
    destruct b; reflexivity.
  - pose proof (write_nonempty (JsNumber n)) as Hne.
    destruct fuel as [|fuel]; [lia|].
    change (write (JsNumber n)) with (write_Z n).
    destruct (write_Z_start n) as (c & s & Hs & Hc).
    rewrite Hs.
    change (String c s +:+ rest) with (String c (s +:+ rest)).
    rewrite (read_value_number _ _ _ Hc).
    change (String c (s +:+ rest)) with (String c s +:+ rest).
    rewrite <- Hs. by apply read_number_write.
  - pose proof (write_nonempty (JsString str)) as Hne.
    destruct fuel as [|fuel]; [lia|].
    change (write (JsString str)) with (quote str).
    by rewrite quote_append, read_value_string, read_chars_escape.
  - rewrite write_array in *.
    destruct fuel as [|fuel]; [simpl in Hfuel; lia|].
    destruct items as [|x l]; [reflexivity|].
    set (J := join "," (List.map write (x :: l))) in *.
    change (String.length ("[" +:+ J +:+ "]"))
      with (S (String.length (J +:+ "]"))) in Hfuel.
    rewrite length_append in Hfuel.
    change (String.length "]") with 1%nat in Hfuel.
    change (("[" +:+ J +:+ "]") +:+ rest)
      with (String "[" ((J +:+ "]") +:+ rest)).
    rewrite append_assoc.
    change ("]" +:+ rest) with (String "]" rest).
    destruct (join_start x l) as (c & s & Hs & Hc). fold J in Hs.
    rewrite Hs at 1.
    change (String c s +:+ String "]" rest)
      with (String c (s +:+ String "]" rest)).
    rewrite (read_value_array _ _ _ Hc).
    change (String c (s +:+ String "]" rest))
      with (String c s +:+ String "]" rest).
    rewrite <- Hs. unfold J.
    rewrite read_elements_write; [reflexivity | | done | fold J; lia].
    apply json_data_array in Hdata.
    rewrite Forall_forall in IH, Hdata. apply Forall_forall.
    intros y Hy. exact (IH y Hy (Hdata y Hy)).
  - rewrite write_object in *.
    destruct fuel as [|fuel]; [simpl in Hfuel; lia|].
    destruct fields as [|[k x] l]; [reflexivity|].
    apply json_data_object in Hdata.
    assert (Hall : Forall (fun fv => json_data (snd fv) = true
                                     /\ reads_back (snd fv)) ((k, x) :: l)).
    { rewrite Forall_forall in IH, Hdata. apply Forall_forall.
      intros fv Hfv. split; [exact (Hdata fv Hfv)|].
      exact (IH fv Hfv (Hdata fv Hfv)). }
    set (M := join "," (write_members ((k, x) :: l))) in *.
    change (String.length ("{" +:+ M +:+ "}"))
      with (S (String.length (M +:+ "}"))) in Hfuel.
    rewrite length_append in Hfuel.
    change (String.length "}") with 1%nat in Hfuel.
    change (("{" +:+ M +:+ "}") +:+ rest)
      with (String "{" ((M +:+ "}") +:+ rest)).
    rewrite append_assoc.
    change ("}" +:+ rest) with (String "}" rest).
    assert (Hs : exists s, M = String dquote s).
    { unfold M.
      apply Forall_cons_1 in Hdata as [Hx Hl]. simpl in Hx.
      rewrite (write_members_cons _ _ _ Hx).
      destruct (write_members l) as [|m ms]; unfold quote; eexists;
        reflexivity. }
    destruct Hs as [s Hs].
    rewrite Hs at 1.
    change (String dquote s +:+ String "}" rest)
      with (String dquote (s +:+ String "}" rest)).
    rewrite read_value_object.
    change (String dquote (s +:+ String "}" rest))
      with (String dquote s +:+ String "}" rest).
    rewrite <- Hs. unfold M.
    rewrite read_members_write; [reflexivity | exact Hall | done | fold M; lia].
Qed.

(** Every value without [undefined] inside is read back from its text. *)
Lemma read_write (v : JsValue) :
  json_data v = true -> read (write v) = Some v.
Proof.
  intros Hdata. unfold read.
  pose proof (read_value_write v Hdata (S (String.length (write v)))
                EmptyString (Nat.le_succ_diag_r _) eq_refl) as Hread.
  rewrite append_nil_r in Hread. by rewrite Hread.
Qed.

End MiniJSON_facts.

(** ** The round trips with the reader and writer above

    With [MiniJSON] for the JSON library, the values of C3 and C8 are all
    the structured values without [undefined] inside: [null], arrays and
    objects. *)

Lemma getObject_after_set_json_data (w : World) (k : string) (v : JsValue)
    (t d : Z) :
  typeof v = "object" -> MiniJSON.json_data v = true ->
  0 <= t -> 0 <= d -> t = 0 \/ d < t ->
  result (RedisClient.getObject (J := MiniJSON.json) k
            (elapse d (after (RedisClient.set (J := MiniJSON.json) k v
                                (SecNumber t) w))))
  = Returned v.
Proof.
  intros Hobj Hdata. apply getObject_after_set; [exact Hobj|].
  exact (MiniJSON_facts.read_write v Hdata).
Qed.

Lemma load_after_save_json_data (this : AbstractCachedData.t)
    (r : RedisClient.Instance) (w : World)
    (entity partialKey : JsValue) (n d : Z) :
  AbstractCachedData.redisClient this = Some r ->
  AbstractCachedData.getKey this partialKey
  = AbstractCachedData.getKey this entity ->
  typeof entity = "object" -> MiniJSON.json_data entity = true ->
  AbstractCachedData.ttl this = SecNumber n ->
  0 <= n -> 0 <= d -> n = 0 \/ d < n ->
  result (AbstractCachedData.load (J := MiniJSON.json) this partialKey
            (elapse d (after (AbstractCachedData.save (J := MiniJSON.json)
                                this entity w))))
  = Returned entity.
Proof.
  intros Hclient Hkey Hobj Hdata Httl.
  unfold AbstractCachedData.load, AbstractCachedData.save.
  rewrite Hclient, Hkey, Httl. by apply getObject_after_set_json_data.
Qed.

(** ** The worked examples *)

(** C1 as the spec states it fails: of the two elements [lrange] fetches,
    [lrangeObject] returns only the parsed one; the text [a], on which
    [JSON.parse] throws, is not in the result. *)
Lemma lrangeObject_drops_unparsed_text :
  result (RedisClient.lrange "k" 0 (-1) two_pushes)
  = Returned [JsString "a"; JsString (MiniJSON.write n1)]
  /\ result (RedisClient.lrangeObject (J := MiniJSON.json) "k" 0 (-1) two_pushes)
     = Returned [n1]
  /\ List.map (passed_through_item (J := MiniJSON.json))
       [JsString "a"; JsString (MiniJSON.write n1)]
     = [JsString "a"; n1]
  /\ result (RedisClient.lrangeObject (J := MiniJSON.json) "k" 0 (-1) two_pushes)
     <> Returned (List.map (passed_through_item (J := MiniJSON.json))
                    [JsString "a"; JsString (MiniJSON.write n1)]).
Proof.
  repeat split; try (vm_compute; reflexivity).
  vm_compute. discriminate.
Qed.

Lemma lrangeObject_parsed_elements_witness :
  Store.find "k" (store two_pushes)
  = Some {| Store.payload :=
              Store.PList [JsString "a"; JsString (MiniJSON.write n1)];
            Store.deadline := None |}
  /\ result (RedisClient.lrangeObject (J := MiniJSON.json) "k" 0 (-1) two_pushes)
     = Returned [n1].
Proof.
  assert (Hfind : Store.find "k" (store two_pushes)
                  = Some {| Store.payload :=
                              Store.PList [JsString "a";
                                           JsString (MiniJSON.write n1)];
                            Store.deadline := None |})
    by (vm_compute; reflexivity).
  split; [exact Hfind|].
  exact (proj1 (proj2 (lrangeObject_parsed_elements (J := MiniJSON.json)
                         two_pushes "k" 0 (-1) _ _ Hfind eq_refl))).
Defined.

Lemma getObject_malformed_is_null_witness :
  Store.find "k" (store hello_stored)
  = Some {| Store.payload := Store.PString (JsString "hello");
            Store.deadline := None |}
  /\ MiniJSON.read "hello" = None
  /\ result (RedisClient.getObject (J := MiniJSON.json) "k" hello_stored)
     = Returned JsNull
  /\ result (RedisClient.getObject (J := MiniJSON.json) "k" fresh)
     = result (RedisClient.getObject (J := MiniJSON.json) "k" hello_stored).
Proof.
  assert (Hfind : Store.find "k" (store hello_stored)
                  = Some {| Store.payload := Store.PString (JsString "hello");
                            Store.deadline := None |})
    by (vm_compute; reflexivity).
  assert (Hbad : MiniJSON.read "hello" = None) by (vm_compute; reflexivity).
  assert (Habsent : Store.find "k" (store fresh) = None)
    by (vm_compute; reflexivity).
  destruct (getObject_malformed_is_null (J := MiniJSON.json)
              hello_stored "k" _ "hello" Hfind eq_refl Hbad)
    as (Hnull & _ & _ & Hsame).
  split; [exact Hfind|]. split; [exact Hbad|].
  split; [exact Hnull | exact (Hsame fresh Habsent)].
Defined.

(** C3 as the spec states it fails: [{a: undefined, b: [undefined, 1]}]
    is an object, [set] stores its JSON text and [getObject] returns
    [{b: [null, 1]}], which is another value. *)
Lemma set_then_getObject_loses_undefined :
  typeof sparse = "object"
  /\ result (RedisClient.set (J := MiniJSON.json) "k" sparse (SecNumber 0) fresh)
     = Returned tt
  /\ result (RedisClient.getObject (J := MiniJSON.json) "k"
               (after (RedisClient.set (J := MiniJSON.json) "k" sparse
                         (SecNumber 0) fresh)))
     = Returned (JsObject [("b", JsArray [JsNull; JsNumber 1])])
  /\ result (RedisClient.getObject (J := MiniJSON.json) "k"
               (after (RedisClient.set (J := MiniJSON.json) "k" sparse
                         (SecNumber 0) fresh)))
     <> Returned sparse.
Proof.
  repeat split; try (vm_compute; reflexivity).
  vm_compute. discriminate.
Qed.

(** [set("user", {id: 7, name: "A"}, 60)] and a [getObject("user")] 59
    seconds later. *)
Lemma set_then_getObject_witness :
  typeof user7 = "object"
  /\ MiniJSON.read (MiniJSON.write user7) = Some user7
  /\ result (RedisClient.getObject (J := MiniJSON.json) "user"
               (elapse 59
                  (after (RedisClient.set (J := MiniJSON.json) "user" user7
                            (SecNumber 60) fresh))))
     = Returned user7.
Proof.
  assert (Hjson : MiniJSON.read (MiniJSON.write user7) = Some user7)
    by (vm_compute; reflexivity).
  split; [reflexivity|]. split; [exact Hjson|].
  refine (proj2 (proj2 (set_then_getObject (J := MiniJSON.json)
                          fresh "user" user7 60 59 eq_refl Hjson _ _ _))).
  - discriminate.
  - discriminate.
  - right. reflexivity.
Defined.



(** The commands [set] sends, on examples. *)
Example set_without_ttl :
  emitted (RedisClient.set (J := MiniJSON.json) "user" user7 SecUndefined) fresh
  = [Called (Store.SET "user" (JsString (MiniJSON.write user7)))].
Proof. vm_compute. reflexivity. Qed.

Example set_with_ttl :
  emitted (RedisClient.set (J := MiniJSON.json) "k" (JsString "v") (SecNumber 3600)) fresh
  = [Called (Store.SETEX "k" (JsString "v") (SecNumber 3600))].
Proof. vm_compute. reflexivity. Qed.

(** The commands [hset], [sadd] and [rpush] send, on examples. *)
Example hset_with_ttl :
  emitted (RedisClient.hset "h" (JsObject [("a", JsNumber 1); ("b", JsNumber 2)])
             (SecNumber 60)) fresh
  = [Called (Store.HSET "h" (JsObject [("a", JsNumber 1); ("b", JsNumber 2)]));
     Called (Store.EXPIRE "h" (SecNumber 60))].
Proof. vm_compute. reflexivity. Qed.

(** The expiry of [hset] is a second step: after the write alone the hash
    has no deadline. *)
Example hset_expiry_is_a_second_step :
  Store.deadline <$>
    Store.find "h"
      (store (after (Client.hset "h" (JsObject [("a", JsNumber 1)]) fresh)))
  = Some None
  /\ Store.deadline <$>
       Store.find "h"
         (store (after (RedisClient.hset "h" (JsObject [("a", JsNumber 1)])
                          (SecNumber 60) fresh)))
     = Some (Some 60).
Proof. split; vm_compute; reflexivity. Qed.

Example sadd_without_ttl :
  emitted (RedisClient.sadd "s" [JsString "x"; JsString "y"] (SecNumber 0)) fresh
  = [Called (Store.SADD "s" [JsString "x"; JsString "y"])].
Proof. vm_compute. reflexivity. Qed.

Example rpush_on_a_string_key_throws :
  emitted (RedisClient.rpush (J := MiniJSON.json) "k" (JsString "x") (SecNumber 60))
    hello_stored
  = [Called (Store.RPUSH "k" (JsString "x"))]
  /\ result (RedisClient.rpush (J := MiniJSON.json) "k" (JsString "x") (SecNumber 60)
               hello_stored)
     = Thrown (StoreError Store.WRONGTYPE).
Proof. split; vm_compute; reflexivity. Qed.

(** A first [init(null)] selects the mock; a later [init] with a
    configuration leaves it in place. *)
Lemma init_idempotent_witness :
  RedisClient.instance (RedisClient.init JsNull RedisClient.initial)
  = Some {| RedisClient.ident := 0; RedisClient._client := RedisClient.MockRedis |}
  /\ RedisClient.init (JsObject [("host", JsString "127.0.0.1")])
       (RedisClient.init JsNull RedisClient.initial)
     = RedisClient.init JsNull RedisClient.initial.
Proof.
  split; [reflexivity|].
  exact (proj1 (init_idempotent (JsObject [("host", JsString "127.0.0.1")])
                  (RedisClient.init JsNull RedisClient.initial) _ eq_refl)).
Defined.



(** Two kinds, one registered. *)
Lemma register_then_get_witness :
  (2%positive ∉ (fst <$> [(1%positive, UserCache)]))
  /\ CachedDataManager.get 1%positive
       (CachedDataManager.register 1%positive UserCache CachedDataManager.new)
     = Returned (Some UserCache)
  /\ CachedDataManager.get 2%positive
       (CachedDataManager.registered [(1%positive, UserCache)] CachedDataManager.new)
     = Returned None.
Proof.
  assert (Hnot : 2%positive ∉ (fst <$> [(1%positive, UserCache)])).
  { simpl. intros Hin. apply list_elem_of_singleton in Hin. discriminate. }
  split; [exact Hnot|]. split.
  - exact (proj1 (register_then_get 1%positive UserCache UserCache
                    CachedDataManager.new [])).
  - exact (proj1 (proj2 (register_then_get 2%positive UserCache UserCache
                           CachedDataManager.new [(1%positive, UserCache)])) Hnot).
Defined.

(** * Further properties *)

(** ** The store, continued *)

Lemma find_put_later (key : string) (e : Store.Entry) (d : Z) (st : Store.t) :
  Store.find key (Store.advance d (Store.put key e st))
  = if Store.live (Store.clock st + d) e then Some e else None.
Proof.
  unfold Store.find, Store.advance, Store.put; simpl.
  by rewrite lookup_insert_eq.
Qed.

Lemma find_remove_ne (key key' : string) (st : Store.t) :
  key <> key' ->
  Store.find key' (Store.remove key st) = Store.find key' st.
Proof.
  intros Hne. unfold Store.find, Store.remove; simpl.
  by rewrite lookup_delete_ne.
Qed.

Lemma slice_nil (start stop : Z) : Store.slice [] start stop = [].
Proof.
  unfold Store.slice. destruct (_ <? _); [reflexivity|].
  by rewrite skipn_nil, firstn_nil.
Qed.

(** The range from 0 to -1 is the whole list. *)
Lemma slice_all (l : list JsValue) : Store.slice l 0 (-1) = l.
Proof.
  unfold Store.slice. cbn [Z.ltb Z.compare].
  replace (Z.max 0 0) with 0 by lia.
  replace (Z.min (Z.of_nat (length l) - 1) (Z.of_nat (length l) + -1))
    with (Z.of_nat (length l) - 1) by lia.
  destruct (Z.ltb_spec (Z.of_nat (length l) - 1) 0) as [Hlt|Hge].
  - destruct l; [reflexivity | simpl in Hlt; lia].
  - replace (Z.to_nat (Z.of_nat (length l) - 1 - 0 + 1)) with (length l) by lia.
    simpl. apply firstn_all.
Qed.

Section FurtherProperties.
Context {J : JSON}.

Import RedisClient.

(** What [get] resolves to is read off the key. *)
Lemma get_result (w : World) (key : string) :
  result (get key w)
  = match Store.find key (store w) with
    | None => Returned JsNull
    | Some e =>
        match Store.payload e with
        | Store.PString v => Returned v
        | _ => Thrown (StoreError Store.WRONGTYPE)
        end
    end.
Proof.
  unfold get, Client.get, bind, call, ret, result; simpl.
  destruct (Store.find key (store w)) as [e|]; [|reflexivity].
  by destruct (Store.payload e).
Qed.

(** [set] with any of the ways to say "no expiry". *)
Lemma set_no_ttl (w : World) (key : string) (value : JsValue) :
  set key value SecUndefined w = set key value (SecNumber 0) w
  /\ set key value SecNull w = set key value (SecNumber 0) w.
Proof. split; reflexivity. Qed.

(** X1: [del] never throws, whatever the key holds; afterwards [get] of the
    key returns [null] at any later time, and the other keys read as
    before. *)
Theorem del_then_get (w : World) (key key' : string) (d : Z) :
  result (del key w) = Returned tt
  /\ result (get key (elapse d (after (del key w)))) = Returned JsNull
  /\ (key <> key' ->
      result (get key' (after (del key w))) = result (get key' w)).
Proof.
  rewrite del_removed. repeat split.
  - rewrite get_result. unfold after, elapse; simpl.
    by rewrite find_remove_advance.
  - intros Hne. rewrite !get_result. unfold after; simpl.
    by rewrite (find_remove_ne _ _ _ Hne).
Qed.

(** X2: [expiry(key, n)] with [n > 0] on a key that holds a value gives
    it [n] seconds from now, whatever expiry it had: [get] returns the
    value up to [n] seconds later and [null] from then on.  On an absent
    key it returns without touching the store. *)
Theorem expiry_then_get (w w' : World) (key : string) (v : JsValue) (n d : Z) :
  string_at key (store w) = Some v ->
  Store.find key (store w') = None ->
  0 < n -> 0 <= d ->
  result (expiry key (SecNumber n) w) = Returned tt
  /\ result (get key (elapse d (after (expiry key (SecNumber n) w))))
     = Returned (if d <? n then v else JsNull)
  /\ result (expiry key (SecNumber n) w') = Returned tt
  /\ store (after (expiry key (SecNumber n) w')) = store w'.
Proof.
  intros Hat Habsent Hn Hd. unfold string_at in Hat.
  destruct (Store.find key (store w)) as [e|] eqn:Hfind; [|done].
  destruct (Store.payload e) as [v'| | |] eqn:Hpay; try done.
  injection Hat as ->.
  assert (Hrun : expiry key (SecNumber n) w
                 = (Returned tt,
                    {| store := Store.put key
                                  {| Store.payload := Store.PString v;
                                     Store.deadline :=
                                       Some (Store.clock (store w) + n) |}
                                  (store w);
                       trace := trace w
                                ++ [Called (Store.EXPIRE key (SecNumber n))] |})).
  { unfold expiry, Client.expire, bind, call, ret; simpl.
    rewrite Hfind, Hpay. by destruct (Z.ltb_spec 0 n); [|lia]. }
  rewrite Hrun. repeat split.
  - rewrite get_result. unfold after, elapse; simpl.
    rewrite find_put_later. unfold Store.live; simpl.
    destruct (Z.ltb_spec d n), (Z.ltb_spec (Store.clock (store w) + d)
                                  (Store.clock (store w) + n));
      try lia; reflexivity.
  - unfold expiry, Client.expire, bind, call, ret, result; simpl.
    by rewrite Habsent.
  - unfold expiry, Client.expire, bind, call, ret, after; simpl.
    by rewrite Habsent.
Qed.

(** What the key holds [d] seconds after a [set] with time to live [t]. *)
Lemma find_after_set (w : World) (k : string) (v : JsValue) (t d : Z) :
  0 <= t -> 0 <= d ->
  Store.find k (store (elapse d (after (set k v (SecNumber t) w))))
  = if (t =? 0) || (d <? t)
    then Some {| Store.payload := Store.PString (Store.text (wire v));
                 Store.deadline :=
                   if t =? 0 then None
                   else Some (Store.clock (store w) + t) |}
    else None.
Proof.
  intros Ht Hd. rewrite (set_written _ _ _ _ Ht).
  unfold after, elapse; cbn -[Store.text wire]. rewrite find_put_later.
  unfold Store.live; cbn -[Store.text wire].
  destruct (Z.eqb_spec t 0) as [->|Hne]; cbn -[Store.text wire];
    [reflexivity|].
  destruct (Z.ltb_spec d t), (Z.ltb_spec (Store.clock (store w) + d)
                                (Store.clock (store w) + t));
    try lia; reflexivity.
Qed.


(** X4: a text that was [set] is read by [getObject] as JSON: the result
    is what [JSON.parse] makes of the text, and [null] when it throws. *)
Theorem set_text_then_getObject (w : World) (k s : string) (d : Z) :
  result (getObject k (elapse d (after (set k (JsString s) SecUndefined w))))
  = Returned (match JSON_parse s with
              | Some v => v
              | None => JsNull
              end).
Proof.
  destruct (set_no_ttl w k (JsString s)) as [-> _].
  rewrite (set_written _ _ _ _ (Z.le_refl 0)); simpl.
  unfold getObject, bind.
  rewrite (get_present _ k {| Store.payload := Store.PString (JsString s);
                              Store.deadline := None |} (JsString s));
    [| by apply find_put_advance | reflexivity].
  simpl. by destruct (JSON_parse s).
Qed.

(** X5: the reading methods leave the store as it is, also when they
    throw. *)
Theorem reads_leave_store (w : World) (key : string) (start stop : Z) :
  store (after (get key w)) = store w
  /\ store (after (getObject key w)) = store w
  /\ store (after (lrange key start stop w)) = store w
  /\ store (after (lrangeObject key start stop w)) = store w.
Proof.
  assert (Hget : forall w, store (after (get key w)) = store w).
  { intros w0. unfold get, Client.get, bind, call, ret, after; simpl.
    destruct (Store.find key (store w0)) as [e|]; [|reflexivity].
    by destruct (Store.payload e). }
  assert (Hrange : forall w,
             store (after (Client.lrange key start stop w)) = store w).
  { intros w0. unfold Client.lrange, bind, call, ret, after; simpl.
    destruct (Store.find key (store w0)) as [e|]; [|reflexivity].
    by destruct (Store.payload e). }
  repeat split; [exact (Hget w) | | exact (Hrange w) |].
  - specialize (Hget w). unfold getObject, bind, after in *.
    destruct (get key w) as [[text|err] w1]; simpl in *; [|exact Hget].
    destruct text as [| |b|n|s|items|fields]; simpl; try exact Hget.
    destruct (JSON_parse s); simpl; exact Hget.
  - specialize (Hrange w). unfold lrangeObject, bind, after in *.
    destruct (Client.lrange key start stop w) as [[arr|err] w1]; simpl in *;
      [|exact Hrange].
    by rewrite lrangeObject_loop_run.
Qed.

(** *** Lists *)

Lemma find_live (key : string) (e : Store.Entry) (st : Store.t) :
  Store.find key st = Some e -> Store.live (Store.clock st) e = true.
Proof.
  unfold Store.find. destruct (Store.db st !! key) as [e'|]; [|done].
  destruct (Store.live (Store.clock st) e') eqn:Hlive; [|done].
  by intros [= <-].
Qed.

(** Replacing what a key holds, its deadline kept. *)
Lemma find_put_kept (key : string) (e : Store.Entry) (p : Store.Payload)
    (st : Store.t) :
  Store.find key st = Some e ->
  Store.find key
    (Store.put key {| Store.payload := p;
                      Store.deadline := Store.deadline e |} st)
  = Some {| Store.payload := p; Store.deadline := Store.deadline e |}.
Proof.
  intros Hfind. pose proof (find_live _ _ _ Hfind) as Hlive.
  rewrite find_put. unfold Store.live in *; simpl. by rewrite Hlive.
Qed.

(** The conditional [expiry] that ends [hset], [sadd] and [rpush] keeps
    what the key holds. *)
Lemma then_expiry_keeps (w : World) (key : string) (seconds : Seconds)
    (e : Store.Entry) :
  Store.find key (store w) = Some e ->
  exists w' e',
    (if sec_gt_0 seconds
     then (await _ <- expiry key seconds ;; ret tt)
     else ret tt) w = (Returned tt, w')
    /\ Store.find key (store w') = Some e'
    /\ Store.payload e' = Store.payload e.
Proof.
  intros Hfind.
  assert (Hkeep : exists w' e',
             ret tt w = (Returned tt, w')
             /\ Store.find key (store w') = Some e'
             /\ Store.payload e' = Store.payload e)
    by (exists w, e; split; [reflexivity | split; [exact Hfind | reflexivity]]).
  destruct seconds as [| |n]; simpl; try exact Hkeep.
  destruct (Z.ltb_spec 0 n) as [Hpos|Hneg]; [|exact Hkeep].
  unfold expiry, Client.expire, bind, call, ret; simpl.
  rewrite Hfind. destruct (Z.ltb_spec 0 n); [|lia].
  eexists _, {| Store.payload := Store.payload e;
                 Store.deadline := Some (Store.clock (store w) + n) |}.
  split; [reflexivity|]. simpl. split; [|reflexivity].
  rewrite find_put. unfold Store.live; simpl.
  by destruct (Z.ltb_spec (Store.clock (store w)) (Store.clock (store w) + n));
    [|lia].
Qed.

Lemma list_at_find (key : string) (st : Store.t) (e : Store.Entry)
    (l : list JsValue) :
  Store.find key st = Some e -> Store.payload e = Store.PList l ->
  list_at key st = Some l.
Proof. intros Hfind Hpay. unfold list_at. by rewrite Hfind, Hpay. Qed.

Lemma rpush_run (w : World) (key : string) (data : JsValue)
    (seconds : Seconds) (items : list JsValue) :
  list_at key (store w) = Some items ->
  result (rpush key data seconds w) = Returned tt
  /\ list_at key (store (after (rpush key data seconds w)))
     = Some (items ++ [Store.text (wire data)]).
Proof.
  intros Hat. unfold rpush. fold (wire data).
  assert (Hpush : exists w1 e1,
             Client.rpush key (wire data) w = (Returned (Z.of_nat (length items) + 1), w1)
             /\ Store.find key (store w1) = Some e1
             /\ Store.payload e1
                = Store.PList (items ++ [Store.text (wire data)])).
  { unfold list_at in Hat.
    unfold Client.rpush, bind, call, ret; cbn -[Store.text wire].
    destruct (Store.find key (store w)) as [e|] eqn:Hfind.
    - destruct (Store.payload e) as [| | |l] eqn:Hpay; try done.
      injection Hat as ->. cbn -[Store.text wire].
      eexists _, {| Store.payload :=
                      Store.PList (items ++ [Store.text (wire data)]);
                    Store.deadline := Store.deadline e |}.
      split; [reflexivity|]. cbn -[Store.text wire]. split; [|reflexivity].
      by apply find_put_kept.
    - injection Hat as <-. cbn -[Store.text wire].
      eexists _, {| Store.payload := Store.PList [Store.text (wire data)];
                    Store.deadline := None |}.
      split; [reflexivity|]. cbn -[Store.text wire]. split; [|reflexivity].
      by rewrite find_put. }
  destruct Hpush as (w1 & e1 & Hrun & Hfind1 & Hpay1).
  destruct (then_expiry_keeps w1 key (default0 seconds) e1 Hfind1)
    as (w2 & e2 & Hexp & Hfind2 & Hpay2).
  assert (Hall : (await _ <- Client.rpush key (wire data) ;;
                  if sec_gt_0 (default0 seconds)
                  then (await _ <- expiry key (default0 seconds) ;; ret tt)
                  else ret tt) w = (Returned tt, w2)).
  { unfold bind at 1. by rewrite Hrun. }
  rewrite Hall. split; [reflexivity|].
  apply (list_at_find _ _ e2); [exact Hfind2 | congruence].
Qed.

Lemma lrange_at (w : World) (key : string) (start stop : Z)
    (l : list JsValue) :
  list_at key (store w) = Some l ->
  Client.lrange key start stop w
  = (Returned (Store.slice l start stop),
     {| store := store w;
        trace := trace w ++ [Called (Store.LRANGE key start stop)] |}).
Proof.
  unfold list_at. intros Hat.
  destruct (Store.find key (store w)) as [e|] eqn:Hfind.
  - destruct (Store.payload e) as [| | |l'] eqn:Hpay; try done.
    injection Hat as ->. by apply (lrange_list _ _ _ _ e).
  - injection Hat as <-. unfold Client.lrange, bind, call, ret; simpl.
    by rewrite Hfind, slice_nil.
Qed.


(** X7: a structured value that the JSON library writes and reads back,
    pushed with [rpush], is the last element [lrangeObject(key, 0, -1)]
    returns, after what it returns of the earlier elements. *)
Theorem rpush_then_lrangeObject (w : World) (key : string) (data : JsValue)
    (seconds : Seconds) (items : list JsValue) :
  list_at key (store w) = Some items ->
  typeof data = "object" ->
  JSON_parse (JSON_stringify data) = Some data ->
  result (lrangeObject key 0 (-1) (after (rpush key data seconds w)))
  = Returned (omap parsed_item items ++ [data]).
Proof.
  intros Hat Hobj Hjson.
  destruct (rpush_run w key data seconds items Hat) as [_ Hat'].
  rewrite (lrangeObject_run _ _ _ _ _ _ (lrange_at _ _ 0 (-1) _ Hat')).
  unfold result; simpl.
  rewrite slice_all, omap_app, (wire_object _ Hobj); simpl.
  by rewrite Hjson.
Qed.

End FurtherProperties.

(** *** The head of a list *)

Lemma lpop_run (w : World) (key : string) (l : list JsValue) :
  list_at key (store w) = Some l ->
  result (RedisClientMore.lpop key w)
  = Returned (match l with [] => JsNull | x :: _ => x end)
  /\ list_at key (store (after (RedisClientMore.lpop key w))) = Some (tl l).
Proof.
  unfold list_at at 1. intros Hat.
  unfold RedisClientMore.lpop, ClientMore.lpop, bind, ask, ret, result, after;
    simpl.
  destruct (Store.find key (store w)) as [e|] eqn:Hfind.
  - destruct (Store.payload e) as [| | |l'] eqn:Hpay; try done.
    injection Hat as ->.
    destruct l as [|x [|y l]]; simpl; (split; [reflexivity|]).
    + unfold list_at. by rewrite find_remove.
    + unfold list_at. by rewrite find_remove.
    + apply (list_at_find _ _ {| Store.payload := Store.PList (y :: l);
                                Store.deadline := Store.deadline e |});
        [|reflexivity].
      by apply find_put_kept.
  - injection Hat as <-. simpl. split; [reflexivity|].
    unfold list_at. by rewrite Hfind.
Qed.

Lemma llen_at (w : World) (key : string) (l : list JsValue) :
  list_at key (store w) = Some l ->
  result (RedisClientMore.llen key w) = Returned (Z.of_nat (length l)).
Proof.
  unfold list_at. intros Hat.
  unfold RedisClientMore.llen, ClientMore.llen, bind, ask, ret, result; simpl.
  destruct (Store.find key (store w)) as [e|] eqn:Hfind.
  - destruct (Store.payload e) as [| | |l'] eqn:Hpay; try done.
    by injection Hat as ->.
  - by injection Hat as <-.
Qed.

(** X8: [lpop] takes from the head: on a key that holds a list it returns
    the first element as it was written, with no JSON decoding, and
    [llen] is one less afterwards; on an empty or absent key it returns
    [null] and [llen] stays 0.  [lrange(key, 0, -1)] returns the remaining
    elements. *)
Theorem lpop_takes_head (w : World) (key : string) (l : list JsValue) :
  list_at key (store w) = Some l ->
  result (RedisClientMore.llen key w) = Returned (Z.of_nat (length l))
  /\ result (RedisClientMore.lpop key w)
     = Returned (match l with [] => JsNull | x :: _ => x end)
  /\ result (RedisClientMore.llen key (after (RedisClientMore.lpop key w)))
     = Returned (Z.of_nat (length l - 1))
  /\ result (RedisClient.lrange key 0 (-1)
               (after (RedisClientMore.lpop key w)))
     = Returned (tl l).
Proof.
  intros Hat. destruct (lpop_run w key l Hat) as [Hpop Hat'].
  repeat split; [by apply llen_at | exact Hpop | |].
  - rewrite (llen_at _ _ _ Hat'). by destruct l; simpl; rewrite ?Nat.sub_0_r.
  - unfold RedisClient.lrange.
    by rewrite (lrange_at _ _ _ _ _ Hat'), slice_all.
Qed.

(** *** Hashes *)

Lemma hash_get_cons (g k : string) (w : JsValue) (h : list (string * JsValue)) :
  Query.hash_get g ((k, w) :: h)
  = if String.eqb g k then Some w else Query.hash_get g h.
Proof. unfold Query.hash_get; simpl. by destruct (String.eqb g k). Qed.










Lemma unflatten_flatten (h : list (string * JsValue)) :
  ClientMore.unflatten (Query.flatten h) = h.
Proof.
  induction h as [|[f v] h IH]; [reflexivity|]. simpl. by rewrite IH.
Qed.





Lemma hgetall_at (w : World) (key : string) (h : list (string * JsValue)) :
  hash_at key (store w) = Some h ->
  result (RedisClientMore.hgetall key w) = Returned (JsObject h).
Proof.
  unfold hash_at. intros Hat.
  unfold RedisClientMore.hgetall, ClientMore.hgetall, bind, ask, ret, result.
  cbn -[Query.flatten ClientMore.unflatten].
  destruct (Store.find key (store w)) as [e|] eqn:Hfind.
  - destruct (Store.payload e) as [|h'| |] eqn:Hpay; try done.
    injection Hat as ->. cbn -[Query.flatten ClientMore.unflatten].
    by rewrite unflatten_flatten.
  - by injection Hat as <-.
Qed.




(** *** Sets *)













(** ** The singletons and the cache entries *)

Lemma init_present (conf : JsValue) (s : RedisClient.Statics)
    (o : RedisClient.Instance) :
  RedisClient.instance s = Some o -> RedisClient.init conf s = s.
Proof. intros Hinst. unfold RedisClient.init. by rewrite Hinst. Qed.

Lemma inits_present (confs : list JsValue) (s : RedisClient.Statics)
    (o : RedisClient.Instance) :
  RedisClient.instance s = Some o -> inits confs s = s.
Proof.
  induction confs as [|conf confs IH]; intros Hinst; [reflexivity|].
  unfold inits in *; simpl. rewrite (init_present _ _ _ Hinst). by apply IH.
Qed.

(** X14: of any sequence of [init] calls in a process only the first has
    an effect: one object is constructed, with the first configuration
    (the mock for [null] or [undefined], a connection to that
    configuration otherwise), and it is the instance [getInstance]
    returns after every later [init]. *)
Theorem first_init_wins (conf : JsValue) (confs : list JsValue) :
  inits (conf :: confs) RedisClient.initial
  = RedisClient.init conf RedisClient.initial
  /\ RedisClient.getInstance (inits (conf :: confs) RedisClient.initial)
     = Returned (Some {| RedisClient.ident := 0;
                         RedisClient._client :=
                           if eq_null conf then RedisClient.MockRedis
                           else RedisClient.Redis conf |})
  /\ RedisClient.constructed (inits (conf :: confs) RedisClient.initial) = 1%nat.
Proof.
  assert (Hinits : inits (conf :: confs) RedisClient.initial
                   = RedisClient.init conf RedisClient.initial).
  { change (inits (conf :: confs) RedisClient.initial)
      with (inits confs (RedisClient.init conf RedisClient.initial)).
    by apply (inits_present _ _ (RedisClient.new conf RedisClient.initial)). }
  rewrite Hinits. repeat split.
  unfold RedisClient.getInstance, RedisClient.init, RedisClient.new; simpl.
  by destruct (eq_null conf).
Qed.

(** X15: after any sequence of registrations on a manager, [get] of a
    kind returns the instance of the latest registration under that kind,
    whatever was registered under other kinds in between; for a kind the
    sequence does not name it returns what the manager had. *)
Theorem get_latest_registration
    (rs : list (CachedDataManager.CachedDataConstructor * AbstractCachedData.t))
    (ctor : CachedDataManager.CachedDataConstructor)
    (this : CachedDataManager.t) :
  CachedDataManager.get ctor (CachedDataManager.registered rs this)
  = Returned (match latest ctor rs with
              | Some i => Some i
              | None => CachedDataManager.map this !! ctor
              end).
Proof.
  unfold CachedDataManager.get. f_equal.
  revert this. induction rs as [|[c i] rs IH]; intros this; [reflexivity|].
  change (CachedDataManager.registered ((c, i) :: rs) this)
    with (CachedDataManager.registered rs (CachedDataManager.register c i this)).
  rewrite IH. simpl latest.
  destruct (latest ctor rs) as [i'|]; [reflexivity|].
  unfold CachedDataManager.register; simpl.
  destruct (Pos.eqb_spec c ctor) as [->|Hne].
  - by rewrite lookup_insert_eq.
  - by rewrite lookup_insert_ne.
Qed.

(** X16: [CachedDataManager.getInstance] constructs the manager on the
    first call and returns the same one afterwards; a registration made
    through it is what [get] through it returns later, registrations of
    other kinds are left as they were, and a kind never registered reads
    [undefined]. *)
Theorem manager_singleton (slot : option CachedDataManager.t)
    (ctor ctor' : CachedDataManager.CachedDataConstructor)
    (instance : AbstractCachedData.t) :
  CachedDataManager.getInstance (snd (CachedDataManager.getInstance slot))
  = CachedDataManager.getInstance slot
  /\ fst (ManagerSingleton.get ctor (ManagerSingleton.register ctor instance slot))
     = Returned (Some instance)
  /\ (ctor' <> ctor ->
      fst (ManagerSingleton.get ctor'
             (ManagerSingleton.register ctor instance slot))
      = fst (ManagerSingleton.get ctor' slot))
  /\ fst (ManagerSingleton.get ctor None) = Returned None.
Proof.
  repeat split.
  - by destruct slot.
  - unfold ManagerSingleton.get, ManagerSingleton.register,
      CachedDataManager.get, CachedDataManager.register; simpl.
    by rewrite lookup_insert_eq.
  - intros Hne.
    unfold ManagerSingleton.get, ManagerSingleton.register,
      CachedDataManager.get, CachedDataManager.register; simpl.
    by rewrite lookup_insert_ne.
Qed.

Section CacheProperties.
Context {J : JSON}.

(** What [getObject] resolves to is read off the key. *)
Lemma getObject_result (w w' : World) (key : string) :
  Store.find key (store w') = Store.find key (store w) ->
  result (RedisClient.getObject key w') = result (RedisClient.getObject key w).
Proof.
  intros Hfind.
  unfold RedisClient.getObject, RedisClient.get, Client.get, bind, call, ret,
    result; simpl.
  rewrite Hfind.
  destruct (Store.find key (store w)) as [e|]; [|reflexivity].
  destruct (Store.payload e) as [v| | |]; try reflexivity.
  destruct v as [| |b|n|s|items|fields]; simpl; try reflexivity.
  by destruct (JSON_parse s).
Qed.

(** [set] and [del] touch one key. *)
Lemma set_other_key (w : World) (k k' : string) (v : JsValue)
    (seconds : Seconds) :
  k <> k' ->
  Store.find k' (store (after (RedisClient.set k v seconds w)))
  = Store.find k' (store w).
Proof.
  intros Hne. unfold RedisClient.set, Client.set, Client.set_EX, bind, call,
    ret, after.
  destruct seconds as [| |[|p|p]]; simpl; by rewrite ?(find_put_ne _ _ _ _ Hne).
Qed.

(** X17: a cache entry lives for its [ttl]: for an entry that holds the
    client, with [ttl = n >= 0], [d] seconds after [save] of an object the
    JSON library writes and reads back, [load] returns it when [n = 0] or
    [d < n], and [null] once [n > 0] seconds have passed.  An entry
    constructed without a [ttl] has [ttl = 0] and does not expire. *)
Theorem cache_entry_lifetime (this : AbstractCachedData.t)
    (r : RedisClient.Instance) (w : World)
    (entity key : JsValue) (n d : Z) (oid : nat) (getKey : JsValue -> string)
    (statics : RedisClient.Statics) :
  AbstractCachedData.redisClient this = Some r ->
  AbstractCachedData.getKey this key = AbstractCachedData.getKey this entity ->
  typeof entity = "object" ->
  JSON_parse (JSON_stringify entity) = Some entity ->
  AbstractCachedData.ttl this = SecNumber n -> 0 <= n -> 0 <= d ->
  result (AbstractCachedData.load this key
            (elapse d (after (AbstractCachedData.save this entity w))))
  = Returned (if (n =? 0) || (d <? n) then entity else JsNull)
  /\ AbstractCachedData.ttl
       (AbstractCachedData.new oid getKey SecUndefined statics)
     = SecNumber 0.
Proof.
  intros Hclient Hkey Hobj Hjson Httl Hn Hd. split; [|reflexivity].
  unfold AbstractCachedData.load, AbstractCachedData.save.
  rewrite Hclient, Hkey, Httl.
  destruct ((n =? 0) || (d <? n)) eqn:Hlive.
  - apply getObject_after_set; try done.
    apply orb_true_iff in Hlive as [?%Z.eqb_eq | ?%Z.ltb_lt]; [by left | by right].
  - apply getObject_absent. by rewrite find_after_set, Hlive.
Qed.

(** X18: entries under different keys do not disturb one another: a
    [save] or a [clean] under one key leaves what [load] returns for
    another key as it was. *)
Theorem cache_keys_independent (this : AbstractCachedData.t) (w : World)
    (entity other key : JsValue) :
  AbstractCachedData.getKey this entity <> AbstractCachedData.getKey this key ->
  AbstractCachedData.getKey this other <> AbstractCachedData.getKey this key ->
  result (AbstractCachedData.load this key
            (after (AbstractCachedData.save this entity w)))
  = result (AbstractCachedData.load this key w)
  /\ result (AbstractCachedData.load this key
               (after (AbstractCachedData.clean this other w)))
     = result (AbstractCachedData.load this key w).
Proof.
  intros Hsave Hclean.
  unfold AbstractCachedData.load, AbstractCachedData.save,
    AbstractCachedData.clean.
  destruct (AbstractCachedData.redisClient this) as [r|];
    [|split; reflexivity].
  split; apply getObject_result.
  - by apply set_other_key.
  - rewrite del_removed. unfold after; simpl. by apply find_remove_ne.
Qed.

End CacheProperties.

Section ReadingProperties.
Context {J : JSON}.

Lemma returned_or_warned (arr : list JsValue) :
  (length (omap parsed_item arr) + length (flat_map warned_item arr)
   = length arr)%nat.
Proof.
  induction arr as [|item arr IH]; [reflexivity|].
  cbn [omap list_omap flat_map]. rewrite length_app.
  change (list_omap _ _ parsed_item arr) with (omap parsed_item arr).
  destruct item as [| |b|n|s|items|fields]; simpl; try lia.
  destruct (JSON_parse s); simpl; lia.
Qed.

(** X19: [lrangeObject] accounts for every element it fetches.  Its result
    is, in order, the parsed value of every fetched text that parses and
    every fetched element that is not a text; after the [LRANGE] it logs,
    in order, one warning naming each fetched text that does not parse,
    and nothing else.  So each fetched element is in the result or named
    in a warning, every warning names a fetched text that does not
    parse, and the entries returned and the warnings logged add up to the
    length of the range. *)
Theorem lrangeObject_returns_or_warns (w : World) (key : string)
    (start stop : Z) (items : list JsValue) :
  list_at key (store w) = Some items ->
  let fetched := Store.slice items start stop in
  let out := omap parsed_item fetched in
  let warnings := flat_map warned_item fetched in
  result (RedisClient.lrangeObject key start stop w) = Returned out
  /\ emitted (RedisClient.lrangeObject key start stop) w
     = Called (Store.LRANGE key start stop) :: warnings
  /\ (forall item : JsValue, In item fetched ->
      match item with
      | JsString s =>
          match JSON_parse s with
          | Some v => In v out
          | None => In (Logged "warn" (s +:+ " is not a json string")) warnings
          end
      | _ => In item out
      end)
  /\ (forall ev : Event, In ev warnings ->
      exists s : string,
        In (JsString s) fetched /\ JSON_parse s = None
        /\ ev = Logged "warn" (s +:+ " is not a json string"))
  /\ (length out + length warnings = length fetched)%nat.
Proof.
  intros Hat fetched out warnings.
  pose proof (lrangeObject_run _ _ _ _ _ _ (lrange_at w key start stop _ Hat))
    as Hrun.
  split; [by rewrite Hrun|]. split; [|split; [|split]].
  - apply emitted_app. rewrite Hrun; simpl. by rewrite <- app_assoc.
  - intros item Hin.
    assert (Hout : forall v, parsed_item item = Some v -> In v out).
    { intros v Hv. apply list_elem_of_In, list_elem_of_omap.
      exists item. split; [by apply list_elem_of_In | exact Hv]. }
    assert (Hwarn : forall ev, In ev (warned_item item) -> In ev warnings).
    { intros ev Hev. apply in_flat_map. by exists item. }
    destruct item as [| |b|n|s|xs|fs]; try (by apply Hout).
    destruct (JSON_parse s) as [v|] eqn:Hparse.
    + by apply Hout.
    + apply Hwarn. simpl. rewrite Hparse. by left.
  - intros ev Hev. apply in_flat_map in Hev as (item & Hin & Hev).
    destruct item as [| |b|n|s|xs|fs]; try (by destruct Hev).
    simpl in Hev. destruct (JSON_parse s) as [v|] eqn:Hparse;
      [by destruct Hev|].
    destruct Hev as [<-|[]]. by exists s.
  - apply returned_or_warned.
Qed.

(** X20: the reading methods do not catch what the connection throws: the
    [try] of [getObject] and of [lrangeObject] covers [JSON.parse] only,
    so a failure of [get] or of the range fetch is the failure of
    [getObject], of [load] on an entry that holds the client, and of
    [lrangeObject], which has logged nothing.  On an entry that holds no
    client, [load] fails with the [TypeError] of the call on [undefined],
    whatever the key holds. *)
Theorem reads_propagate_errors (this : AbstractCachedData.t)
    (r : RedisClient.Instance) (w : World)
    (key : string) (partialKey : JsValue) (start stop : Z) (e : Exception) :
  (result (RedisClient.get key w) = Thrown e ->
   result (RedisClient.getObject key w) = Thrown e)
  /\ (AbstractCachedData.redisClient this = Some r ->
      result (RedisClient.get (AbstractCachedData.getKey this partialKey) w)
      = Thrown e ->
      result (AbstractCachedData.load this partialKey w) = Thrown e)
  /\ (AbstractCachedData.redisClient this = None ->
      result (AbstractCachedData.load this partialKey w)
      = Thrown (TypeError
                  "Cannot read properties of undefined (reading 'getObject')"))
  /\ (result (RedisClient.lrange key start stop w) = Thrown e ->
      result (RedisClient.lrangeObject key start stop w) = Thrown e
      /\ emitted (RedisClient.lrangeObject key start stop) w
         = [Called (Store.LRANGE key start stop)]).
Proof.
  assert (Hget : forall k, result (RedisClient.get k w) = Thrown e ->
                           result (RedisClient.getObject k w) = Thrown e).
  { intros k. unfold RedisClient.getObject, bind, result.
    destruct (RedisClient.get k w) as [[text|e'] w1]; simpl; [done|].
    by intros [= ->]. }
  split; [apply Hget|]. split; [|split].
  - intros Hclient. unfold AbstractCachedData.load. rewrite Hclient.
    apply Hget.
  - intros Hclient. unfold AbstractCachedData.load. by rewrite Hclient.
  - unfold RedisClient.lrange, RedisClient.lrangeObject, bind, result.
    destruct (Client.lrange key start stop w) as [[arr|e'] w1] eqn:Hrange;
      simpl; [done|].
    intros [= ->]. split; [reflexivity|].
    apply emitted_app. unfold after, bind. rewrite Hrange; simpl.
    revert Hrange. unfold Client.lrange, bind, call, ret.
    destruct (fst (Store.exec _ _)) as [e'|[| |v|n|items]];
      by intros [= <- <-].
Qed.

End ReadingProperties.

(** ** The store keeps text *)

Lemma find_db (key : string) (st : Store.t) (e : Store.Entry) :
  Store.find key st = Some e -> Store.db st !! key = Some e.
Proof.
  unfold Store.find. destruct (Store.db st !! key) as [e'|]; [|done].
  destruct (Store.live (Store.clock st) e'); [|done]. by intros [= ->].
Qed.

Lemma textual_empty : textual Store.empty.
Proof. intros key e Hin. simpl in Hin. by rewrite lookup_empty in Hin. Qed.

Lemma textual_put (key : string) (e : Store.Entry) (st : Store.t) :
  textual st -> textual_payload (Store.payload e) = true ->
  textual (Store.put key e st).
Proof.
  intros Hst He k e' Hin. unfold Store.put in Hin; simpl in Hin.
  destruct (decide (key = k)) as [->|Hne].
  - rewrite lookup_insert_eq in Hin. by injection Hin as <-.
  - rewrite lookup_insert_ne in Hin by done. by apply (Hst k).
Qed.

Lemma textual_remove (key : string) (st : Store.t) :
  textual st -> textual (Store.remove key st).
Proof.
  intros Hst k e Hin. unfold Store.remove in Hin; simpl in Hin.
  destruct (decide (key = k)) as [->|Hne].
  - by rewrite lookup_delete_eq in Hin.
  - rewrite lookup_delete_ne in Hin by done. by apply (Hst k).
Qed.

Lemma textual_find (key : string) (st : Store.t) (e : Store.Entry) :
  textual st -> Store.find key st = Some e ->
  textual_payload (Store.payload e) = true.
Proof. intros Hst Hfind. apply (Hst key). by apply find_db. Qed.

Lemma hash_put_text (f : string) (v : JsValue) (h : list (string * JsValue)) :
  forallb (fun fv => is_text (snd fv)) h = true -> is_text v = true ->
  forallb (fun fv => is_text (snd fv)) (Store.hash_put f v h) = true.
Proof.
  intros Hh Hv. induction h as [|[g w] h IH]; simpl in *.
  - by rewrite Hv.
  - apply andb_true_iff in Hh as [Hw Hh].
    destruct (String.eqb f g); simpl.
    + by rewrite Hv, Hh.
    + by rewrite Hw, (IH Hh).
Qed.

Lemma hash_merge_text (h new : list (string * JsValue)) :
  forallb (fun fv => is_text (snd fv)) h = true ->
  forallb (fun fv => is_text (snd fv)) new = true ->
  forallb (fun fv => is_text (snd fv)) (Store.hash_merge h new) = true.
Proof.
  revert h. induction new as [|[f v] new IH]; intros h Hh Hnew; [exact Hh|].
  simpl in Hnew. apply andb_true_iff in Hnew as [Hv Hnew].
  change (Store.hash_merge h ((f, v) :: new))
    with (Store.hash_merge (Store.hash_put f v h) new).
  apply IH; [by apply hash_put_text | exact Hnew].
Qed.

Lemma text_fields_text (l : list (string * JsValue)) :
  forallb (fun fv => is_text (snd fv)) (Store.text_fields l) = true.
Proof. by induction l as [|[f v] l IH]. Qed.

Lemma texts_text (l : list JsValue) : forallb is_text (Store.texts l) = true.
Proof. by induction l as [|v l IH]. Qed.

Lemma set_union_text (s new : list JsValue) :
  forallb is_text s = true -> forallb is_text new = true ->
  forallb is_text (Store.set_union s new) = true.
Proof.
  revert s. induction new as [|y new IH]; intros s Hs Hnew; [exact Hs|].
  simpl in Hnew. apply andb_true_iff in Hnew as [Hy Hnew].
  change (Store.set_union s (y :: new))
    with (Store.set_union (if Store.mem y s then s else s ++ [y]) new).
  apply IH; [|exact Hnew].
  destruct (Store.mem y s); [exact Hs|].
  rewrite forallb_app, Hs. simpl. by rewrite Hy.
Qed.

Lemma firstn_text (n : nat) (l : list JsValue) :
  forallb is_text l = true -> forallb is_text (firstn n l) = true.
Proof.
  revert n. induction l as [|x l IH]; intros [|n] Hl; try reflexivity.
  simpl in *. apply andb_true_iff in Hl as [Hx Hl]. by rewrite Hx, (IH n Hl).
Qed.

Lemma skipn_text (n : nat) (l : list JsValue) :
  forallb is_text l = true -> forallb is_text (skipn n l) = true.
Proof.
  revert n. induction l as [|x l IH]; intros [|n] Hl; try reflexivity;
    [exact Hl|].
  simpl in *. apply andb_true_iff in Hl as [Hx Hl]. by apply IH.
Qed.

Lemma slice_text (l : list JsValue) (start stop : Z) :
  forallb is_text l = true -> forallb is_text (Store.slice l start stop) = true.
Proof.
  intros Hl. unfold Store.slice. destruct (_ <? _); [reflexivity|].
  by apply firstn_text, skipn_text.
Qed.

Ltac textual_step :=
  cbn [snd];
  match goal with
  | |- textual (Store.put _ _ _) => apply textual_put; [assumption|]
  | |- textual (Store.remove _ _) => apply textual_remove; assumption
  | |- textual _ => assumption
  end.

Lemma exec_textual (c : Store.Cmd) (st : Store.t) :
  textual st -> textual (snd (Store.exec c st)).
Proof.
  intros Hst.
  destruct c as [key value|key value seconds|key|key|key seconds|key data
                |key members|key data|key start stop];
    cbn -[Store.hash_merge Store.set_union Store.text_fields Store.texts
          Store.hset_fields Store.put Store.remove Z.ltb].
  - by textual_step.
  - destruct seconds as [| |n]; try done. destruct (0 <? n); [|done].
    by textual_step.
  - destruct (Store.find key st) as [e|]; [|done]. by destruct (Store.payload e).
  - destruct (Store.find key st); by textual_step.
  - destruct seconds as [| |n]; try done.
    destruct (Store.find key st) as [e|] eqn:Hfind; [|done].
    destruct (0 <? n); textual_step. exact (textual_find _ _ _ Hst Hfind).
  - destruct (Store.hset_fields data) as [[|fv fields]|]; try done.
    destruct (Store.find key st) as [e|] eqn:Hfind.
    + pose proof (textual_find _ _ _ Hst Hfind) as He.
      destruct (Store.payload e) as [|h| |]; try done.
      textual_step. apply hash_merge_text; [exact He | apply text_fields_text].
    + textual_step. apply hash_merge_text; [reflexivity | apply text_fields_text].
  - destruct members as [|x members]; [done|].
    destruct (Store.find key st) as [e|] eqn:Hfind.
    + pose proof (textual_find _ _ _ Hst Hfind) as He.
      destruct (Store.payload e) as [| |s|]; try done.
      textual_step. apply set_union_text; [exact He | apply texts_text].
    + textual_step. apply set_union_text; [reflexivity | apply texts_text].
  - destruct (Store.find key st) as [e|] eqn:Hfind.
    + pose proof (textual_find _ _ _ Hst Hfind) as He.
      destruct (Store.payload e) as [| | |l]; try done.
      textual_step. simpl in *. by rewrite forallb_app, He.
    + by textual_step.
  - destruct (Store.find key st) as [e|]; [|done]. by destruct (Store.payload e).
Qed.

Lemma query_textual (q : Query.t) (st : Store.t) :
  textual st -> textual (snd (Query.exec q st)).
Proof.
  intros Hst.
  destruct q as [key field|key|key field value|key|key member|key|key];
    cbn -[Store.flat Store.put Store.remove].
  - destruct (Store.find key st) as [e|]; [|done].
    destruct (Store.payload e) as [|h| |]; try done.
    by destruct (Query.hash_get field h).
  - destruct (Store.find key st) as [e|]; [|done]. by destruct (Store.payload e).
  - destruct (Store.flat value) as [|v [|]]; try done.
    destruct (Store.find key st) as [e|] eqn:Hfind.
    + pose proof (textual_find _ _ _ Hst Hfind) as He.
      destruct (Store.payload e) as [|h| |]; try done.
      destruct (Query.hash_get field h); [done|].
      textual_step. simpl in *. by rewrite forallb_app, He.
    + by textual_step.
  - destruct (Store.find key st) as [e|]; [|done]. by destruct (Store.payload e).
  - destruct (Store.flat member) as [|v [|]]; try done.
    destruct (Store.find key st) as [e|]; [|done]. by destruct (Store.payload e).
  - destruct (Store.find key st) as [e|]; [|done]. by destruct (Store.payload e).
  - destruct (Store.find key st) as [e|] eqn:Hfind; [|done].
    pose proof (textual_find _ _ _ Hst Hfind) as He.
    destruct (Store.payload e) as [| | |[|x [|y l]]]; try done;
      try (by textual_step).
    textual_step. simpl in *. by apply andb_true_iff in He as [_ He].
Qed.

Lemma keeps_ret {A : Type} (a : A) : keeps_text (ret a).
Proof. by intros w Hw. Qed.

Lemma keeps_throw {A : Type} (e : Exception) : keeps_text (@throw A e).
Proof. by intros w Hw. Qed.

Lemma keeps_logger (level msg : string) : keeps_text (logger level msg).
Proof. by intros w Hw. Qed.

Lemma keeps_call (c : Store.Cmd) : keeps_text (call c).
Proof.
  intros w Hw. unfold call, after.
  destruct (fst (Store.exec c (store w))); by apply exec_textual.
Qed.

Lemma keeps_ask (q : Query.t) : keeps_text (ask q).
Proof.
  intros w Hw. unfold ask, after.
  destruct (fst (Query.exec q (store w))); by apply query_textual.
Qed.

Lemma keeps_bind {A B : Type} (p : Promise A) (k : A -> Promise B) :
  keeps_text p -> (forall a, keeps_text (k a)) -> keeps_text (bind p k).
Proof.
  intros Hp Hk w Hw. specialize (Hp w Hw). unfold bind, after in *.
  destruct (p w) as [[a|e] w']; simpl in *; [|exact Hp].
  by apply Hk.
Qed.

Ltac keeps :=
  repeat first
    [ apply keeps_ret | apply keeps_throw | apply keeps_logger
    | apply keeps_call | apply keeps_ask
    | apply keeps_bind; [|intros ?]
    | match goal with
      | |- keeps_text (if ?b then _ else _) => destruct b
      | |- keeps_text (match ?x with _ => _ end) => destruct x
      end ].

Section KeepsText.
Context {J : JSON}.

Lemma keeps_set (key : string) (value : JsValue) (seconds : Seconds) :
  keeps_text (RedisClient.set key value seconds).
Proof.
  unfold RedisClient.set, Client.set, Client.set_EX. keeps.
Qed.







Lemma keeps_rpush (key : string) (data : JsValue) (seconds : Seconds) :
  keeps_text (RedisClient.rpush key data seconds).
Proof. unfold RedisClient.rpush, Client.rpush. keeps. Qed.






End KeepsText.


Section ReadsText.
Context {J : JSON}.

Lemma get_text (w : World) (key : string) (v : JsValue) :
  textual (store w) ->
  result (RedisClient.get key w) = Returned v ->
  v = JsNull \/ is_text v = true.
Proof.
  intros Hw. rewrite get_result.
  destruct (Store.find key (store w)) as [e|] eqn:Hfind;
    [|intros [= <-]; by left].
  pose proof (textual_find _ _ _ Hw Hfind) as He.
  destruct (Store.payload e) as [x| | |]; try done.
  intros [= <-]. by right.
Qed.

Lemma lrange_text (w : World) (key : string) (start stop : Z)
    (items : list JsValue) :
  textual (store w) ->
  result (RedisClient.lrange key start stop w) = Returned items ->
  forallb is_text items = true.
Proof.
  intros Hw.
  unfold RedisClient.lrange, Client.lrange, bind, call, ret, result; simpl.
  destruct (Store.find key (store w)) as [e|] eqn:Hfind;
    [|by intros [= <-]].
  pose proof (textual_find _ _ _ Hw Hfind) as He.
  destruct (Store.payload e) as [| | |l]; try done.
  simpl. intros [= <-]. by apply slice_text.
Qed.

End ReadsText.

Lemma hash_get_text (f : string) (h : list (string * JsValue)) (v : JsValue) :
  forallb (fun fv => is_text (snd fv)) h = true ->
  Query.hash_get f h = Some v -> is_text v = true.
Proof.
  intros Hh. induction h as [|[g w] h IH]; [done|].
  simpl in Hh. apply andb_true_iff in Hh as [Hw Hh].
  rewrite hash_get_cons. destruct (String.eqb f g); [|by apply IH].
  by intros [= <-].
Qed.

Lemma hget_text (w : World) (key name : string) (v : JsValue) :
  textual (store w) ->
  result (RedisClientMore.hget key name w) = Returned v ->
  v = JsNull \/ is_text v = true.
Proof.
  intros Hw.
  unfold RedisClientMore.hget, ClientMore.hget, bind, ask, ret, result; simpl.
  destruct (Store.find key (store w)) as [e|] eqn:Hfind;
    [|intros [= <-]; by left].
  pose proof (textual_find _ _ _ Hw Hfind) as He.
  destruct (Store.payload e) as [|h| |]; try done.
  destruct (Query.hash_get name h) as [x|] eqn:Hget; simpl;
    intros [= <-]; [right | by left].
  by apply (hash_get_text name h).
Qed.

Lemma hgetall_text (w : World) (key : string) (v : JsValue) :
  textual (store w) ->
  result (RedisClientMore.hgetall key w) = Returned v ->
  exists fields : list (string * JsValue),
    v = JsObject fields
    /\ forallb (fun fv => is_text (snd fv)) fields = true.
Proof.
  intros Hw Hres.
  destruct (hash_at key (store w)) as [h|] eqn:Hat.
  - rewrite (hgetall_at _ _ _ Hat) in Hres. injection Hres as <-.
    exists h. split; [reflexivity|].
    unfold hash_at in Hat.
    destruct (Store.find key (store w)) as [e|] eqn:Hfind;
      [|by injection Hat as <-].
    pose proof (textual_find _ _ _ Hw Hfind) as He.
    destruct (Store.payload e) as [|h'| |]; try done.
    by injection Hat as <-.
  - exfalso. revert Hres. unfold hash_at in Hat.
    unfold RedisClientMore.hgetall, ClientMore.hgetall, bind, ask, ret, result.
    cbn -[Query.flatten ClientMore.unflatten].
    destruct (Store.find key (store w)) as [e|]; [|done].
    by destruct (Store.payload e).
Qed.

Lemma lpop_text (w : World) (key : string) (v : JsValue) :
  textual (store w) ->
  result (RedisClientMore.lpop key w) = Returned v ->
  v = JsNull \/ is_text v = true.
Proof.
  intros Hw.
  unfold RedisClientMore.lpop, ClientMore.lpop, bind, ask, ret, result; simpl.
  destruct (Store.find key (store w)) as [e|] eqn:Hfind;
    [|intros [= <-]; by left].
  pose proof (textual_find _ _ _ Hw Hfind) as He.
  destruct (Store.payload e) as [| | |[|x [|y l]]]; try done; simpl in *;
    intros [= <-]; [by left| |]; right;
    by apply andb_true_iff in He as [Hx _].
Qed.


(** X22: what the reading methods return from a store that holds text
    only is text: [get], [hget] and [lpop] return [null] or a string,
    [lrange] an array of strings, and [hgetall] an object whose values
    are strings. *)
Theorem reads_return_text {J : JSON} (w : World) (key name : string)
    (start stop : Z) :
  textual (store w) ->
  (forall v : JsValue,
     result (RedisClient.get key w) = Returned v ->
     v = JsNull \/ is_text v = true)
  /\ (forall v : JsValue,
      result (RedisClientMore.hget key name w) = Returned v ->
      v = JsNull \/ is_text v = true)
  /\ (forall v : JsValue,
      result (RedisClientMore.lpop key w) = Returned v ->
      v = JsNull \/ is_text v = true)
  /\ (forall items : list JsValue,
      result (RedisClient.lrange key start stop w) = Returned items ->
      forallb is_text items = true)
  /\ (forall v : JsValue,
      result (RedisClientMore.hgetall key w) = Returned v ->
      exists fields : list (string * JsValue),
        v = JsObject fields
        /\ forallb (fun fv => is_text (snd fv)) fields = true).
Proof.
  intros Hw.
  split; [intros v; by apply get_text|].
  split; [intros v; by apply hget_text|].
  split; [intros v; by apply lpop_text|].
  split; [intros items; by apply lrange_text|].
  intros v. by apply hgetall_text.
Qed.

(** ** The further properties on examples *)

Lemma del_then_get_witness :
  "k" <> "other"
  /\ result (RedisClient.get "k" (elapse 5 (after (RedisClient.del "k" hello_stored))))
     = Returned JsNull
  /\ result (RedisClient.get "other" (after (RedisClient.del "k" hello_stored)))
     = result (RedisClient.get "other" hello_stored).
Proof.
  assert (Hne : "k" <> "other") by discriminate.
  destruct (del_then_get hello_stored "k" "other" 5) as (_ & Hnull & Hother).
  split; [exact Hne|]. split; [exact Hnull | exact (Hother Hne)].
Defined.

Lemma expiry_then_get_witness :
  string_at "k" (store hello_stored) = Some (JsString "hello")
  /\ Store.find "k" (store fresh) = None
  /\ result (RedisClient.get "k"
               (elapse 9 (after (RedisClient.expiry "k" (SecNumber 10) hello_stored))))
     = Returned (JsString "hello")
  /\ result (RedisClient.get "k"
               (elapse 10 (after (RedisClient.expiry "k" (SecNumber 10) hello_stored))))
     = Returned JsNull
  /\ store (after (RedisClient.expiry "k" (SecNumber 10) fresh)) = store fresh.
Proof.
  assert (Hat : string_at "k" (store hello_stored) = Some (JsString "hello"))
    by (vm_compute; reflexivity).
  assert (Habsent : Store.find "k" (store fresh) = None)
    by (vm_compute; reflexivity).
  assert (Hpos : 0 < 10) by reflexivity.
  assert (H9 : 0 <= 9) by discriminate.
  assert (H10 : 0 <= 10) by discriminate.
  destruct (expiry_then_get hello_stored fresh "k" (JsString "hello") 10 9
              Hat Habsent Hpos H9) as (_ & Hbefore & _ & Hnoop).
  destruct (expiry_then_get hello_stored fresh "k" (JsString "hello") 10 10
              Hat Habsent Hpos H10) as (_ & Hafter & _ & _).
  split; [exact Hat|]. split; [exact Habsent|].
  split; [exact Hbefore|]. split; [exact Hafter | exact Hnoop].
Defined.



Lemma rpush_then_lrangeObject_witness :
  list_at "k" (store two_pushes)
  = Some [JsString "a"; JsString (MiniJSON.write n1)]
  /\ MiniJSON.read (MiniJSON.write user7) = Some user7
  /\ result (RedisClient.lrangeObject (J := MiniJSON.json) "k" 0 (-1)
               (after (RedisClient.rpush (J := MiniJSON.json) "k" user7
                         SecUndefined two_pushes)))
     = Returned [n1; user7].
Proof.
  assert (Hat : list_at "k" (store two_pushes)
                = Some [JsString "a"; JsString (MiniJSON.write n1)])
    by (vm_compute; reflexivity).
  assert (Hjson : MiniJSON.read (MiniJSON.write user7) = Some user7)
    by (vm_compute; reflexivity).
  split; [exact Hat|]. split; [exact Hjson|].
  exact (rpush_then_lrangeObject (J := MiniJSON.json) two_pushes "k" user7
           SecUndefined _ Hat eq_refl Hjson).
Defined.

Lemma lpop_takes_head_witness :
  list_at "k" (store two_pushes)
  = Some [JsString "a"; JsString (MiniJSON.write n1)]
  /\ result (RedisClientMore.lpop "k" two_pushes) = Returned (JsString "a")
  /\ result (RedisClientMore.llen "k" (after (RedisClientMore.lpop "k" two_pushes)))
     = Returned 1
  /\ result (RedisClientMore.lpop "k" fresh) = Returned JsNull.
Proof.
  assert (Hat : list_at "k" (store two_pushes)
                = Some [JsString "a"; JsString (MiniJSON.write n1)])
    by (vm_compute; reflexivity).
  assert (Hempty : list_at "k" (store fresh) = Some [])
    by (vm_compute; reflexivity).
  destruct (lpop_takes_head two_pushes "k" _ Hat) as (_ & Hpop & Hlen & _).
  destruct (lpop_takes_head fresh "k" _ Hempty) as (_ & Hnull & _ & _).
  split; [exact Hat|]. split; [exact Hpop|]. split; [exact Hlen | exact Hnull].
Defined.






Lemma manager_singleton_witness :
  2%positive <> 1%positive
  /\ fst (ManagerSingleton.get 1%positive
            (ManagerSingleton.register 1%positive UserCache None))
     = Returned (Some UserCache)
  /\ fst (ManagerSingleton.get 2%positive
            (ManagerSingleton.register 1%positive UserCache None))
     = Returned None.
Proof.
  assert (Hne : 2%positive <> 1%positive) by discriminate.
  destruct (manager_singleton None 1%positive 2%positive UserCache)
    as (_ & Hget & Hother & _).
  split; [exact Hne|]. split; [exact Hget | exact (Hother Hne)].
Defined.

Lemma cache_entry_lifetime_witness :
  AbstractCachedData.redisClient UserCache
  = Some {| RedisClient.ident := 0; RedisClient._client := RedisClient.MockRedis |}
  /\ AbstractCachedData.getKey UserCache (JsObject [("id", JsNumber 7)])
     = AbstractCachedData.getKey UserCache user7
  /\ MiniJSON.read (MiniJSON.write user7) = Some user7
  /\ result (AbstractCachedData.load (J := MiniJSON.json) UserCache
               (JsObject [("id", JsNumber 7)])
               (elapse 3599 (after (AbstractCachedData.save (J := MiniJSON.json)
                                      UserCache user7 fresh))))
     = Returned user7
  /\ result (AbstractCachedData.load (J := MiniJSON.json) UserCache
               (JsObject [("id", JsNumber 7)])
               (elapse 3600 (after (AbstractCachedData.save (J := MiniJSON.json)
                                      UserCache user7 fresh))))
     = Returned JsNull.
Proof.
  assert (Hclient : AbstractCachedData.redisClient UserCache
                    = Some {| RedisClient.ident := 0;
                              RedisClient._client := RedisClient.MockRedis |})
    by reflexivity.
  assert (Hkey : AbstractCachedData.getKey UserCache (JsObject [("id", JsNumber 7)])
                 = AbstractCachedData.getKey UserCache user7)
    by (vm_compute; reflexivity).
  assert (Hjson : MiniJSON.read (MiniJSON.write user7) = Some user7)
    by (vm_compute; reflexivity).
  assert (Hn : 0 <= 3600) by discriminate.
  assert (H1 : 0 <= 3599) by discriminate.
  split; [exact Hclient|]. split; [exact Hkey|]. split; [exact Hjson|]. split.
  - exact (proj1 (cache_entry_lifetime (J := MiniJSON.json) UserCache _ fresh
                    user7 (JsObject [("id", JsNumber 7)]) 3600 3599 0
                    (fun _ => "") RedisClient.initial
                    Hclient Hkey eq_refl Hjson eq_refl Hn H1)).
  - exact (proj1 (cache_entry_lifetime (J := MiniJSON.json) UserCache _ fresh
                    user7 (JsObject [("id", JsNumber 7)]) 3600 3600 0
                    (fun _ => "") RedisClient.initial
                    Hclient Hkey eq_refl Hjson eq_refl Hn Hn)).
Defined.

Lemma cache_keys_independent_witness :
  AbstractCachedData.getKey UserCache (JsObject [("id", JsNumber 8)])
  <> AbstractCachedData.getKey UserCache user7
  /\ result (AbstractCachedData.load (J := MiniJSON.json) UserCache user7
               (after (AbstractCachedData.clean UserCache
                         (JsObject [("id", JsNumber 8)])
                         (after (AbstractCachedData.save (J := MiniJSON.json)
                                   UserCache user7 fresh)))))
     = Returned user7.
Proof.
  assert (Hne : AbstractCachedData.getKey UserCache (JsObject [("id", JsNumber 8)])
                <> AbstractCachedData.getKey UserCache user7)
    by (vm_compute; discriminate).
  split; [exact Hne|].
  rewrite (proj2 (cache_keys_independent (J := MiniJSON.json) UserCache
                    (after (AbstractCachedData.save (J := MiniJSON.json)
                              UserCache user7 fresh))
                    (JsObject [("id", JsNumber 8)])
                    (JsObject [("id", JsNumber 8)]) user7 Hne Hne)).
  vm_compute. reflexivity.
Defined.

(** [lrangeObject("k", 0, -1)] after [rpush(k, "a"); rpush(k, {n: 1})]:
    [{n: 1}] is returned and the text [a] is named in the one warning. *)
Lemma lrangeObject_returns_or_warns_witness :
  list_at "k" (store two_pushes)
  = Some [JsString "a"; JsString (MiniJSON.write n1)]
  /\ result (RedisClient.lrangeObject (J := MiniJSON.json) "k" 0 (-1) two_pushes)
     = Returned [n1]
  /\ emitted (RedisClient.lrangeObject (J := MiniJSON.json) "k" 0 (-1))
       two_pushes
     = [Called (Store.LRANGE "k" 0 (-1));
        Logged "warn" "a is not a json string"].
Proof.
  assert (Hat : list_at "k" (store two_pushes)
                = Some [JsString "a"; JsString (MiniJSON.write n1)])
    by (vm_compute; reflexivity).
  split; [exact Hat|].
  destruct (lrangeObject_returns_or_warns (J := MiniJSON.json) two_pushes "k"
              0 (-1) _ Hat) as (Hout & Hlog & _).
  split; [exact Hout | exact Hlog].
Defined.

(** [get] on a key that holds a list, [lrange] on a key that holds a text,
    and [load] on an entry constructed before [init]. *)
Lemma reads_propagate_errors_witness :
  result (RedisClient.get "k" two_pushes) = Thrown (StoreError Store.WRONGTYPE)
  /\ result (RedisClient.getObject (J := MiniJSON.json) "k" two_pushes)
     = Thrown (StoreError Store.WRONGTYPE)
  /\ result (RedisClient.lrange "k" 0 (-1) hello_stored)
     = Thrown (StoreError Store.WRONGTYPE)
  /\ result (RedisClient.lrangeObject (J := MiniJSON.json) "k" 0 (-1) hello_stored)
     = Thrown (StoreError Store.WRONGTYPE)
  /\ AbstractCachedData.redisClient EarlyCache = None
  /\ result (AbstractCachedData.load (J := MiniJSON.json) EarlyCache user7 fresh)
     = Thrown (TypeError
                 "Cannot read properties of undefined (reading 'getObject')").
Proof.
  assert (Hget : result (RedisClient.get "k" two_pushes)
                 = Thrown (StoreError Store.WRONGTYPE))
    by (vm_compute; reflexivity).
  assert (Hrange : result (RedisClient.lrange "k" 0 (-1) hello_stored)
                   = Thrown (StoreError Store.WRONGTYPE))
    by (vm_compute; reflexivity).
  assert (Hnone : AbstractCachedData.redisClient EarlyCache = None)
    by reflexivity.
  pose (r := {| RedisClient.ident := 0;
                RedisClient._client := RedisClient.MockRedis |}).
  split; [exact Hget|]. split; [|split; [exact Hrange|split; [|split]]].
  - exact (proj1 (reads_propagate_errors (J := MiniJSON.json) UserCache r
                    two_pushes "k" JsNull 0 (-1) (StoreError Store.WRONGTYPE))
             Hget).
  - exact (proj1 (proj2 (proj2 (proj2
             (reads_propagate_errors (J := MiniJSON.json) UserCache r
                hello_stored "k" JsNull 0 (-1) (StoreError Store.WRONGTYPE))))
             Hrange)).
  - exact Hnone.
  - exact (proj1 (proj2 (proj2
             (reads_propagate_errors (J := MiniJSON.json) EarlyCache r
                fresh "k" user7 0 (-1) (StoreError Store.WRONGTYPE)))) Hnone).
Defined.


(** [get("k")] after [set("k", "hello")], and [lrange("k", 0, -1)] and
    [lpop("k")] after the two pushes. *)
Lemma reads_return_text_witness :
  textual (store hello_stored)
  /\ textual (store two_pushes)
  /\ result (RedisClient.get "k" hello_stored) = Returned (JsString "hello")
  /\ (JsString "hello" = JsNull \/ is_text (JsString "hello") = true)
  /\ result (RedisClient.lrange "k" 0 (-1) two_pushes)
     = Returned [JsString "a"; JsString (MiniJSON.write n1)]
  /\ forallb is_text [JsString "a"; JsString (MiniJSON.write n1)] = true.
Proof.
  assert (Hhello : textual (store hello_stored))
    by exact (keeps_set (J := MiniJSON.json) "k" (JsString "hello")
                SecUndefined fresh textual_empty).
  assert (Hpushes : textual (store two_pushes)).
  { exact (keeps_rpush (J := MiniJSON.json) "k" n1 SecUndefined _
             (keeps_rpush (J := MiniJSON.json) "k" (JsString "a")
                SecUndefined fresh textual_empty)). }
  assert (Hget : result (RedisClient.get "k" hello_stored)
                 = Returned (JsString "hello"))
    by (vm_compute; reflexivity).
  assert (Hrange : result (RedisClient.lrange "k" 0 (-1) two_pushes)
                   = Returned [JsString "a"; JsString (MiniJSON.write n1)])
    by (vm_compute; reflexivity).
  split; [exact Hhello|]. split; [exact Hpushes|].
  split; [exact Hget|]. split; [|split; [exact Hrange|]].
  - exact (proj1 (reads_return_text (J := MiniJSON.json) hello_stored "k" ""
                    0 (-1) Hhello) _ Hget).
  - exact (proj1 (proj2 (proj2 (proj2
             (reads_return_text (J := MiniJSON.json) two_pushes "k" ""
                0 (-1) Hpushes)))) _ Hrange).
Defined.
